(** * The portfolio service worker (sw.js): caching strategies and lifecycle

    A shallow embedding of the service worker of the portfolio site: the
    install / activate / fetch listeners and the three request handlers,
    over a model of the browser objects they call (CacheStorage, Cache,
    fetch, ExtendableEvent.waitUntil, FetchEvent.respondWith).

    Modelling conventions.
    - A [Request] carries the three fields the worker reads: [method],
      [url] (the absolute, serialised URL) and [destination].
    - A [Response] is a duplicable value (status and body); [clone] is the
      identity on it.  [ok] is the Fetch API's range check 200..299.
    - A [Cache] maps a request identity (the URL of a GET request) to a
      response.  [CacheStorage] is the ordered list of named caches, in
      creation order: [caches.open] appends a missing cache at the end,
      [caches.keys] lists the names in that order, and [caches.match]
      answers from the first cache, in that order, that holds the key.
    - An async function is a computation over the [World] (the cache
      storage and the trace of effects performed so far) that settles as
      fulfilled with a value or rejected with an error.  [await] is bind;
      try / catch is [try_catch].  The [cache.put] calls, which the source
      does not await, are sequenced at the point where they are issued;
      the handler goes on whether the put is fulfilled or rejects
      ([unawaited]).
    - A cache refuses a response whose status is 206 (Partial Content):
      [cache.put] rejects with a TypeError and stores nothing, and
      [cache.addAll] rejects as it does for a status outside 200..299.
      [cache.put] also refuses a request that is not a GET or whose URL is
      not of the http or https scheme.  The origin of the worker is an
      http or https origin, so that the requests [cache.addAll] builds
      from the root-relative paths are of that scheme.
    - Requests and responses carry no headers here; in particular no
      response has a [Vary] header, which would make a cache refuse it
      ([Vary: *]) or make the answer of [caches.match] depend on the
      headers of the request.
    - A JavaScript value that is a Response or [undefined] is an
      [option Response]. *)

From stdpp Require Import gmap strings list fin_maps.
From Stdlib Require Import ZArith Ascii String.

Local Open Scope Z_scope.

(** ** Requests, responses, caches *)

Record Request := mkRequest {
  method : string;
  url : string;
  destination : string
}.

Record Response := mkResponse {
  status : Z;
  body : string
}.

(** [response.ok]: the status is in the range 200-299. *)
Definition ok (r : Response) : bool :=
  (200 <=? status r) && (status r <=? 299).

(** [response.clone()]: responses are plain values here. *)
Definition clone (r : Response) : Response := r.

(** [new Request(path)] for a root-relative path, as [cache.addAll] and
    [caches.match('/index.html')] build it: a GET for the URL resolved
    against the worker's origin, with the empty destination. *)
Definition resolve (origin path : string) : string := origin +:+ path.

Definition new_Request (origin path : string) : Request :=
  {| method := "GET"; url := resolve origin path; destination := "" |}.

Abbreviation Cache := (gmap string Response).
Abbreviation CacheStorage := (list (string * Cache)).

(** ** Effects *)

Inductive Event :=
  | NetFetch (request : Request)
  | CachePut (cacheName key : string) (response : Response)
  | CacheDelete (cacheName : string)
  | SkipWaiting
  | ClientsClaim.

Record World := mkWorld {
  caches : CacheStorage;
  trace : list Event
}.

Inductive JsError := TypeError.

Inductive Settled (A : Type) :=
  | Fulfilled (a : A)
  | Rejected (e : JsError).
Arguments Fulfilled {A} a.
Arguments Rejected {A} e.

Definition Promise (A : Type) : Type := World → Settled A * World.

#[global] Instance promise_ret : MRet Promise :=
  λ A a w, (Fulfilled a, w).

#[global] Instance promise_bind : MBind Promise :=
  λ A B k p w,
    match p w with
    | (Fulfilled a, w') => k a w'
    | (Rejected e, w') => (Rejected e, w')
    end.

(** [try { body } catch (error) { handler }] around awaited promises. *)
Definition try_catch {A} (body : Promise A) (handler : JsError → Promise A)
  : Promise A :=
  λ w,
    match body w with
    | (Fulfilled a, w') => (Fulfilled a, w')
    | (Rejected e, w') => handler e w'
    end.

Definition throw {A} (e : JsError) : Promise A := λ w, (Rejected e, w).

Definition emit (e : Event) : Promise () :=
  λ w, (Fulfilled (), {| caches := caches w; trace := trace w ++ [e] |}).

Definition get_caches : Promise CacheStorage :=
  λ w, (Fulfilled (caches w), w).

Definition set_caches (cs : CacheStorage) : Promise () :=
  λ w, (Fulfilled (), {| caches := cs; trace := trace w |}).

(** ** The cache storage *)

(** [caches.match(key)]: the caches are searched in creation order. *)
Fixpoint storage_match (cs : CacheStorage) (key : string) : option Response :=
  match cs with
  | [] => None
  | (_, c) :: rest =>
      match c !! key with
      | Some r => Some r
      | None => storage_match rest key
      end
  end.

Definition storage_has (cs : CacheStorage) (name : string) : bool :=
  existsb (λ p, String.eqb (fst p) name) cs.

(** [caches.open(name)]: a cache that does not exist is created, empty, after
    the existing ones. *)
Definition storage_open (cs : CacheStorage) (name : string) : CacheStorage :=
  if storage_has cs name then cs else cs ++ [(name, ∅)].

(** [cache.put(key, response)] on the cache called [name]. *)
Fixpoint storage_put (cs : CacheStorage) (name key : string) (r : Response)
  : CacheStorage :=
  match cs with
  | [] => []
  | (n, c) :: rest =>
      if String.eqb n name then (n, <[key := r]> c) :: rest
      else (n, c) :: storage_put rest name key r
  end.

(** [caches.delete(name)]. *)
Definition storage_delete (cs : CacheStorage) (name : string) : CacheStorage :=
  filter (λ p, fst p ≠ name) cs.

(** [caches.keys()]. *)
Definition storage_keys (cs : CacheStorage) : list string := map fst cs.

(** The cache called [name], if it exists. *)
Fixpoint storage_get (cs : CacheStorage) (name : string) : option Cache :=
  match cs with
  | [] => None
  | (n, c) :: rest => if String.eqb n name then Some c else storage_get rest name
  end.

Definition caches_match (key : string) : Promise (option Response) :=
  cs ← get_caches; mret (storage_match cs key).

(** The handle of an opened cache is its name. *)
Definition caches_open (name : string) : Promise string :=
  cs ← get_caches; set_caches (storage_open cs name);; mret name.

(** The write of one entry into the cache called [cache]. *)
Definition cache_store (cache key : string) (r : Response) : Promise () :=
  cs ← get_caches;
  set_caches (storage_put cs cache key r);;
  emit (CachePut cache key r).

(** The URLs a cache takes: those of the http and https schemes. *)
Definition http_scheme (u : string) : bool :=
  String.prefix "http://" u || String.prefix "https://" u.

(** What [cache.put] accepts: a GET request for an http or https URL, with
    a response whose status is not 206. *)
Definition accepts (request : Request) (r : Response) : bool :=
  String.eqb (method request) "GET" && http_scheme (url request) &&
  negb (status r =? 206).

(** [cache.put(request, response)]: the response is written under the URL
    of the request; when the cache does not accept the pair the promise
    rejects with a TypeError and nothing is written. *)
Definition cache_put (cache : string) (request : Request) (r : Response)
  : Promise () :=
  if accepts request r then cache_store cache (url request) r
  else throw TypeError.

(** A promise that is started and not awaited: the caller goes on when it
    has run, whether it was fulfilled or rejected (a rejection stays
    unhandled). *)
Definition unawaited {A} (p : Promise A) : Promise () :=
  λ w, (Fulfilled (), snd (p w)).

Definition caches_keys : Promise (list string) :=
  cs ← get_caches; mret (storage_keys cs).

Definition caches_delete (name : string) : Promise bool :=
  cs ← get_caches;
  set_caches (storage_delete cs name);;
  emit (CacheDelete name);;
  mret (storage_has cs name).

(** [Promise.all] over promises that are started one after the other. *)
Fixpoint promise_all {A} (ps : list (Promise A)) : Promise (list A) :=
  match ps with
  | [] => mret []
  | p :: rest => a ← p; as' ← promise_all rest; mret (a :: as')
  end.

(** [s.includes(sub)]: [sub] occurs somewhere in [s]. *)
Fixpoint includes (s sub : string) : bool :=
  String.prefix sub s ||
  match s with
  | EmptyString => false
  | String _ s' => includes s' sub
  end.

(** [new Response(body, { status })]. *)
Definition new_Response (body : string) (status : Z) : Response :=
  {| status := status; body := body |}.

(** ** The worker *)

(** Assets to cache immediately. *)
Definition STATIC_ASSETS : list string :=
  ["/"; "/index.html"; "/style.css"; "/script.js"; "/assets/resume.pdf"].

(** The constants of sw.js as deployed. *)
Module Deployed.
Definition CACHE_NAME : string := "portfolio-v1.0.0".
Definition STATIC_CACHE : string := "static-v1.0.0".
Definition DYNAMIC_CACHE : string := "dynamic-v1.0.0".
End Deployed.

Section Worker.

(** The cache version tokens ([STATIC_CACHE], [DYNAMIC_CACHE]), which
    change from one deployment to the next, the origin the worker is
    served from, and the network: [None] is a network-layer failure (the
    promise of [fetch] rejects), [Some r] a response of any status. *)
Variables STATIC_CACHE DYNAMIC_CACHE : string.
Variable origin : string.
Variable network : Request → option Response.

Definition fetch (request : Request) : Promise Response :=
  emit (NetFetch request);;
  match network request with
  | Some r => mret r
  | None => throw TypeError
  end.

(** *** cache.addAll

    Every request of the list is fetched; if one of them fails or comes
    back with a status outside 200..299, or with the status 206, the
    promise rejects and nothing is stored, otherwise every response is
    stored under its request. *)
Definition fetch_settled (request : Request) : Promise (option Response) :=
  try_catch (r ← fetch request; mret (Some r)) (λ _, mret None).

Definition usable (x : option Response) : bool :=
  match x with
  | Some r => ok r && negb (status r =? 206)
  | None => false
  end.

Fixpoint put_each (cache : string) (entries : list (Request * option Response))
  : Promise () :=
  match entries with
  | [] => mret ()
  | (request, Some r) :: rest =>
      cache_store cache (url request) r;; put_each cache rest
  | (_, None) :: rest => put_each cache rest
  end.

Definition cache_addAll (cache : string) (paths : list string) : Promise () :=
  let requests := map (new_Request origin) paths in
  responses ← promise_all (map fetch_settled requests);
  if forallb usable responses
  then put_each cache (zip requests responses)
  else throw TypeError.

Definition skipWaiting : Promise () := emit SkipWaiting.
Definition clients_claim : Promise () := emit ClientsClaim.

(** *** Install event - cache static assets

    The promise handed to [event.waitUntil]. *)
Definition onInstall : Promise () :=
  cache ← caches_open STATIC_CACHE;
  cache_addAll cache STATIC_ASSETS;;
  skipWaiting.

(** *** Activate event - clean up old caches

    The promise handed to [event.waitUntil]; the callback of [map] yields
    the promise of [caches.delete] or [undefined]. *)
Definition onActivate : Promise () :=
  cacheNames ← caches_keys;
  promise_all
    (map (λ cacheName,
            if bool_decide (cacheName ≠ STATIC_CACHE) &&
               bool_decide (cacheName ≠ DYNAMIC_CACHE)
            then deleted ← caches_delete cacheName; mret (Some deleted)
            else mret None)
         cacheNames);;
  clients_claim.

(** *** Handle image requests with cache-first strategy *)
Definition handleImageRequest (request : Request) : Promise (option Response) :=
  try_catch
    (cachedResponse ← caches_match (url request);
     match cachedResponse with
     | Some r => mret (Some r)
     | None =>
         networkResponse ← fetch request;
         (if ok networkResponse
          then cache ← caches_open DYNAMIC_CACHE;
               unawaited (cache_put cache request (clone networkResponse))
          else mret ());;
         mret (Some networkResponse)
     end)
    (λ error, mret (Some (new_Response "" 404))).

(** *** Handle asset requests with cache-first strategy *)
Definition handleAssetRequest (request : Request) : Promise (option Response) :=
  try_catch
    (cachedResponse ← caches_match (url request);
     match cachedResponse with
     | Some r => mret (Some r)
     | None =>
         networkResponse ← fetch request;
         (if ok networkResponse
          then cache ← caches_open DYNAMIC_CACHE;
               unawaited (cache_put cache request (clone networkResponse))
          else mret ());;
         mret (Some networkResponse)
     end)
    (λ error, mret (Some (new_Response "" 404))).

(** *** Handle page requests with network-first strategy

    In the catch block a miss of [caches.match('/index.html')] is returned
    as it is: the promise is fulfilled with [undefined]. *)
Definition handlePageRequest (request : Request) : Promise (option Response) :=
  try_catch
    (networkResponse ← fetch request;
     (if ok networkResponse
      then cache ← caches_open DYNAMIC_CACHE;
           unawaited (cache_put cache request (clone networkResponse))
      else mret ());;
     mret (Some networkResponse))
    (λ error,
       cachedResponse ← caches_match (url request);
       match cachedResponse with
       | Some r => mret (Some r)
       | None =>
           if String.eqb (destination request) "document"
           then caches_match (url (new_Request origin "/index.html"))
           else mret (Some (new_Response "Offline" 503))
       end).

(** *** Fetch event - serve from cache, fallback to network

    The listener either returns without calling [event.respondWith], and the
    browser handles the request as if there were no worker, or hands the
    promise of one of the three handlers to [event.respondWith]. *)
Inductive Interception :=
  | PassThrough
  | RespondWith (response : Promise (option Response)).

Definition onFetch (request : Request) : Interception :=
  if negb (String.eqb (method request) "GET") then PassThrough
  else if String.eqb (destination request) "image"
       then RespondWith (handleImageRequest request)
  else if includes (url request) "/assets/"
       then RespondWith (handleAssetRequest request)
  else RespondWith (handlePageRequest request).

(** The class of a GET request, as the conditions of the listener derive
    it, and the handler of each class. *)
Inductive RequestClass := Image | Asset | Page.

Definition classify (request : Request) : RequestClass :=
  if String.eqb (destination request) "image" then Image
  else if includes (url request) "/assets/" then Asset
  else Page.

Definition strategy (c : RequestClass) : Request → Promise (option Response) :=
  match c with
  | Image => handleImageRequest
  | Asset => handleAssetRequest
  | Page => handlePageRequest
  end.

(** What the page that issued the request gets.  [respondWith] answers
    with the response the promise is fulfilled with; a promise that rejects
    or is fulfilled with something that is not a Response makes the request
    fail with a network error.  A request that is not intercepted takes the
    browser's own network path. *)
Inductive PageResult :=
  | Received (r : Response)
  | NetworkError.

Definition respondWith (p : Promise (option Response)) (w : World)
  : PageResult * World :=
  match p w with
  | (Fulfilled (Some r), w') => (Received r, w')
  | (Fulfilled None, w') => (NetworkError, w')
  | (Rejected _, w') => (NetworkError, w')
  end.

Definition dispatch_fetch (request : Request) (w : World) : PageResult * World :=
  match onFetch request with
  | PassThrough =>
      (match network request with
       | Some r => Received r
       | None => NetworkError
       end, w)
  | RespondWith p => respondWith p w
  end.

(** *** The lifecycle of one worker

    [event.waitUntil] in the install listener: the worker is installed when
    the promise is fulfilled and discarded when it rejects.  The installed
    worker, which asked for [skipWaiting], is activated; the activate
    listener's promise delays the first fetch event until it settles. *)
Inductive WorkerState :=
  | Installing
  | Waiting
  | Activating
  | Active
  | InstallFailed.

Definition lifecycle_step (s : WorkerState) (w : World) : WorkerState * World :=
  match s with
  | Installing =>
      match onInstall w with
      | (Fulfilled _, w') => (Waiting, w')
      | (Rejected _, w') => (InstallFailed, w')
      end
  | Waiting => (Activating, w)
  | Activating => (Active, snd (onActivate w))
  | Active => (Active, w)
  | InstallFailed => (InstallFailed, w)
  end.

Fixpoint lifecycle (n : nat) (s : WorkerState) (w : World) : WorkerState * World :=
  match n with
  | O => (s, w)
  | S n' => let (s', w') := lifecycle_step s w in lifecycle n' s' w'
  end.

End Worker.

(** ** Observations on the cache storage *)

(** The entry stored for [key] in the cache called [name]. *)
Definition partition_lookup (cs : CacheStorage) (name key : string)
  : option Response :=
  c ← storage_get cs name; c !! key.

(** ** The classification in the words of the specification *)

(** The path of a serialised URL: what follows the authority, up to the
    query or the fragment. *)
Fixpoint after_scheme (s : string) : string :=
  match s with
  | EmptyString => EmptyString
  | String c s' =>
      if String.prefix "://" s then String.substring 3 (String.length s) s
      else after_scheme s'
  end.

Fixpoint from_slash (s : string) : string :=
  match s with
  | EmptyString => EmptyString
  | String c s' => if Ascii.eqb c "/"%char then s else from_slash s'
  end.

Fixpoint before_query (s : string) : string :=
  match s with
  | EmptyString => EmptyString
  | String c s' =>
      if Ascii.eqb c "?"%char || Ascii.eqb c "#"%char then EmptyString
      else String c (before_query s')
  end.

Definition pathname (u : string) : string :=
  before_query (from_slash (after_scheme u)).

(** The classification as the specification words it: an Asset is a
    request whose path falls under the static-assets prefix. *)
Definition classify_by_path_prefix (request : Request) : RequestClass :=
  if String.eqb (destination request) "image" then Image
  else if String.prefix "/assets/" (pathname (url request)) then Asset
  else Page.

(** ** Observations on the install step *)

(** What [cache.addAll] stores for a list of root-relative paths once every
    one of them has been fetched: each response under the URL of its
    request, in the order of the list. *)
Definition stored_by_addAll (origin : string)
    (network : Request → option Response) (paths : list string)
  : list (string * Response) :=
  omap (λ path, r ← network (new_Request origin path);
                Some (resolve origin path, r)) paths.

(** Whether every required asset can be fetched with a response that
    [cache.addAll] accepts: an OK one other than a 206. *)
Definition assets_reachable (origin : string)
    (network : Request → option Response) : bool :=
  forallb (λ path, usable (network (new_Request origin path))) STATIC_ASSETS.


(** ** A browsing session *)

(** The fetch events of a session, dispatched one after the other, each
    against the network as it is when the request is made. *)
Fixpoint browse (DYNAMIC_CACHE origin : string)
    (visits : list ((Request → option Response) * Request)) (w : World)
  : World :=
  match visits with
  | [] => w
  | (network, request) :: rest =>
      browse DYNAMIC_CACHE origin rest
        (snd (dispatch_fetch DYNAMIC_CACHE origin network request w))
  end.

(** ** Concrete requests, networks and worlds *)

Module Example.

Definition site : string := "https://example.com".

(** Networks: down; answering every request with a 200 whose body names the
    URL; answering every request with one given response; and the second
    one with the stylesheet unreachable. *)
Definition offline : Request → option Response := λ _, None.

Definition online : Request → option Response :=
  λ request, Some {| status := 200; body := url request |}.

Definition serves (r : Response) : Request → option Response := λ _, Some r.

Definition stylesheet_unreachable : Request → option Response :=
  λ request,
    if String.eqb (url request) "https://example.com/style.css" then None
    else online request.

(** The second one with the resume answered in part, as a 206. *)
Definition resume_in_part : Request → option Response :=
  λ request,
    if String.eqb (url request) "https://example.com/assets/resume.pdf"
    then Some {| status := 206; body := "bytes 0-1023" |}
    else online request.

Definition old_home : Response := {| status := 200; body := "home, as installed" |}.
Definition new_home : Response := {| status := 200; body := "home, as of today" |}.

(** The answer to a range request: the first bytes of a media file. *)
Definition partial : Response := {| status := 206; body := "bytes 0-1023" |}.

(** Worlds: nothing cached; the home document cached by the install step. *)
Definition fresh : World := {| caches := []; trace := [] |}.

Definition installed : World :=
  {| caches :=
       [(Deployed.STATIC_CACHE,
         {[ "https://example.com/index.html" := old_home ]})];
     trace := [] |}.

Definition picture : Response := {| status := 200; body := "PNG" |}.

(** The installed world after an image has been served once. *)
Definition browsed : World :=
  {| caches :=
       [(Deployed.STATIC_CACHE,
         {[ "https://example.com/index.html" := old_home ]});
        (Deployed.DYNAMIC_CACHE,
         {[ "https://example.com/img/photo.png" := picture ]})];
     trace := [] |}.

(** Requests: navigations to the home document, to a page, and to a file
    under /assets/; an image; a script whose query string mentions
    /assets/; a form submission. *)
Definition home : Request :=
  {| method := "GET"; url := "https://example.com/index.html";
     destination := "document" |}.

Definition about : Request :=
  {| method := "GET"; url := "https://example.com/about";
     destination := "document" |}.

Definition brochure : Request :=
  {| method := "GET"; url := "https://example.com/assets/brochure.pdf";
     destination := "document" |}.

Definition photo : Request :=
  {| method := "GET"; url := "https://example.com/img/photo.png";
     destination := "image" |}.

Definition search : Request :=
  {| method := "GET"; url := "https://example.com/search?from=/assets/";
     destination := "script" |}.

Definition contact : Request :=
  {| method := "POST"; url := "https://example.com/contact";
     destination := "" |}.

(** Two media files requested by a video element, one of them under
    /assets/. *)
Definition clip : Request :=
  {| method := "GET"; url := "https://example.com/media/clip.mp4";
     destination := "video" |}.

Definition trailer : Request :=
  {| method := "GET"; url := "https://example.com/assets/trailer.mp4";
     destination := "video" |}.

(** A script a browser extension adds to the page. *)
Definition injected : Request :=
  {| method := "GET"; url := "chrome-extension://helper/inject.js";
     destination := "script" |}.

End Example.

(** * script.js: the typing animation

    [TypingAnimation] types the texts of a list one character at a time
    into an element, pauses, deletes them again and moves on to the next
    text.  Every call of [type()] is one step of a state machine over the
    three counters of the object and the text shown; it ends by arming a
    timer for the next call, or none.

    A JavaScript string is the list of its UTF-16 code units; [length] and
    [substring] count in those. *)

Module Typing.

Definition JsString := list N.

(** [s.substring(0, k)]: a negative [k] counts as 0, one beyond the length
    as the length. *)
Definition substring0 (s : JsString) (k : Z) : JsString := take (Z.to_nat k) s.

(** The delay of the timer a step arms: [typeSpeed], [deleteSpeed],
    [pauseTime] or [pauseTime / 2]. *)
Inductive Timer := TypeSpeed | DeleteSpeed | PauseTime | HalfPauseTime.

Record Animation := mkAnimation {
  currentTextIndex : nat;
  currentCharIndex : Z;
  isDeleting : bool;
  textContent : JsString
}.

(** The state the constructor leaves, with what the element shows. *)
Definition start (shown : JsString) : Animation :=
  {| currentTextIndex := 0; currentCharIndex := 0; isDeleting := false;
     textContent := shown |}.

Section Animation.

Variable texts : list JsString.
Variable loop : bool.

(** [type()].  [None] is the TypeError of reading [substring] off
    [undefined], when [currentTextIndex] is outside the list. *)
Definition type (a : Animation) : option (Animation * option Timer) :=
  match texts !! currentTextIndex a with
  | None => None
  | Some currentText =>
      if isDeleting a then
        let shown := substring0 currentText (currentCharIndex a - 1) in
        let index := currentCharIndex a - 1 in
        if index =? 0 then
          Some ({| currentTextIndex :=
                     (currentTextIndex a + 1) mod List.length texts;
                   currentCharIndex := index;
                   isDeleting := false;
                   textContent := shown |}, Some HalfPauseTime)
        else
          Some ({| currentTextIndex := currentTextIndex a;
                   currentCharIndex := index;
                   isDeleting := true;
                   textContent := shown |}, Some DeleteSpeed)
      else
        let shown := substring0 currentText (currentCharIndex a + 1) in
        let index := currentCharIndex a + 1 in
        if index =? Z.of_nat (List.length currentText) then
          if loop then
            Some ({| currentTextIndex := currentTextIndex a;
                     currentCharIndex := index;
                     isDeleting := true;
                     textContent := shown |}, Some PauseTime)
          else
            Some ({| currentTextIndex := currentTextIndex a;
                     currentCharIndex := index;
                     isDeleting := false;
                     textContent := shown |}, None)
        else
          Some ({| currentTextIndex := currentTextIndex a;
                   currentCharIndex := index;
                   isDeleting := false;
                   textContent := shown |}, Some TypeSpeed)
  end.

(** The animation between two calls of [type()]: a call is due (the first
    one at once, the others when the armed timer fires), the animation has
    stopped with no timer armed, or a call has thrown. *)
Inductive Run :=
  | Due (a : Animation)
  | Stopped (a : Animation)
  | Thrown.

(** The next call of [type()], with the timer it arms. *)
Definition step (r : Run) : Run * option Timer :=
  match r with
  | Due a =>
      match type a with
      | Some (a', Some timer) => (Due a', Some timer)
      | Some (a', None) => (Stopped a', None)
      | None => (Thrown, None)
      end
  | Stopped a => (Stopped a, None)
  | Thrown => (Thrown, None)
  end.

(** [n] calls, with the timers armed on the way, in order. *)
Fixpoint steps (n : nat) (r : Run) : Run * list Timer :=
  match n with
  | O => (r, [])
  | S n' =>
      let (r', armed) := step r in
      let (r'', later) := steps n' r' in
      (r'', match armed with Some t => t :: later | None => later end)
  end.

(** [init()]: nothing runs without an element or without texts. *)
Definition init (element : option JsString) : option Run :=
  match element with
  | None => None
  | Some shown =>
      if (List.length texts =? 0)%nat then None else Some (Due (start shown))
  end.

End Animation.

End Typing.

(** * script.js: form validation

    [FormValidator] checks a field when it loses focus and every required
    field when the form is submitted.  The value of a field is a
    JavaScript string, a list of UTF-16 code units; the two regular
    expressions of [validateField] are embedded as terms of a small type of
    regular expressions, and [regex.test] of an expression anchored with ^
    and $ is matching of the whole string. *)

Module Form.

Definition JsString := list N.

(** The white space of [trim()] and of the class \s: TAB, LF, VT, FF, CR,
    SPACE, NBSP, U+1680, U+2000 to U+200A, LS, PS, U+202F, U+205F, U+3000
    and the byte order mark. *)
Definition isWhiteSpace (c : N) : bool :=
  ((9 <=? c) && (c <=? 13) || (c =? 32) || (c =? 160) || (c =? 5760) ||
   (8192 <=? c) && (c <=? 8202) || (c =? 8232) || (c =? 8233) ||
   (c =? 8239) || (c =? 8287) || (c =? 12288) || (c =? 65279))%N.

Fixpoint trimStart (s : JsString) : JsString :=
  match s with
  | [] => []
  | c :: rest => if isWhiteSpace c then trimStart rest else s
  end.

Definition trimEnd (s : JsString) : JsString := reverse (trimStart (reverse s)).

Definition trim (s : JsString) : JsString := trimEnd (trimStart s).

(** ** Regular expressions *)

Inductive regex :=
  | Empty
  | Eps
  | Class (p : N → bool)
  | Cat (r1 r2 : regex)
  | Alt (r1 r2 : regex)
  | Star (r : regex).

(** [r+] *)
Definition Plus (r : regex) : regex := Cat r (Star r).

Fixpoint nullable (r : regex) : bool :=
  match r with
  | Empty => false
  | Eps => true
  | Class _ => false
  | Cat r1 r2 => nullable r1 && nullable r2
  | Alt r1 r2 => nullable r1 || nullable r2
  | Star _ => true
  end.

(** What is left of [r] to match once the code unit [c] has been read. *)
Fixpoint deriv (c : N) (r : regex) : regex :=
  match r with
  | Empty => Empty
  | Eps => Empty
  | Class p => if p c then Eps else Empty
  | Cat r1 r2 =>
      if nullable r1
      then Alt (Cat (deriv c r1) r2) (deriv c r2)
      else Cat (deriv c r1) r2
  | Alt r1 r2 => Alt (deriv c r1) (deriv c r2)
  | Star r1 => Cat (deriv c r1) (Star r1)
  end.

(** [/^r$/.test(s)] *)
Fixpoint test (r : regex) (s : JsString) : bool :=
  match s with
  | [] => nullable r
  | c :: rest => test (deriv c r) rest
  end.

(** The strings an expression matches. *)
Inductive Matches : regex → JsString → Prop :=
  | MEps : Matches Eps []
  | MClass p c : p c = true → Matches (Class p) [c]
  | MCat r1 r2 s1 s2 :
      Matches r1 s1 → Matches r2 s2 → Matches (Cat r1 r2) (s1 ++ s2)
  | MAltL r1 r2 s : Matches r1 s → Matches (Alt r1 r2) s
  | MAltR r1 r2 s : Matches r2 s → Matches (Alt r1 r2) s
  | MStarNil r : Matches (Star r) []
  | MStarApp r s1 s2 :
      Matches r s1 → Matches (Star r) s2 → Matches (Star r) (s1 ++ s2).

(** [[^\s@]]: anything but white space and the at sign. *)
Definition notSpaceNorAt (c : N) : bool :=
  negb (isWhiteSpace c || (c =? 64)%N).

(** [[a-zA-Z\s]] *)
Definition letterOrSpace (c : N) : bool :=
  ((97 <=? c) && (c <=? 122) || (65 <=? c) && (c <=? 90))%N || isWhiteSpace c.

(** [/^[^\s@]+@[^\s@]+\.[^\s@]+$/] *)
Definition emailRegex : regex :=
  Cat (Plus (Class notSpaceNorAt))
    (Cat (Class (N.eqb 64))
       (Cat (Plus (Class notSpaceNorAt))
          (Cat (Class (N.eqb 46)) (Plus (Class notSpaceNorAt))))).

(** [/^[a-zA-Z\s]+$/] *)
Definition nameRegex : regex := Plus (Class letterOrSpace).

(** ** Fields *)

(** What [validateField] reads of a field. *)
Record Field := mkField {
  value : JsString;
  type : string;
  name : string;
  required : bool
}.

(** What it writes: the classes [error] and [valid] of the field, and the
    error element of its parent, with its text and its class [show], once
    there is one. *)
Record Display := mkDisplay {
  errorClass : bool;
  validClass : bool;
  errorElement : option (string * bool)
}.

Definition showFieldValidation (d : Display) (isValid : bool)
    (errorMessage : string) : Display :=
  if isValid
  then {| errorClass := false; validClass := true;
          errorElement := Some (EmptyString, false) |}
  else {| errorClass := true; validClass := false;
          errorElement := Some (errorMessage, true) |}.

Definition clearErrors (d : Display) : Display :=
  {| errorClass := false; validClass := false;
     errorElement := match errorElement d with
                     | Some (text, _) => Some (text, false)
                     | None => None
                     end |}.

(** The verdict and the message of [validateField], before they are
    shown. *)
Definition verdict (field : Field) : bool * string :=
  let value := trim (value field) in
  let blank := (List.length value =? 0)%nat in
  if required field && blank then
    (false, "This field is required"%string)
  else if String.eqb (type field) "email" && negb blank then
    if negb (test emailRegex value)
    then (false, "Please enter a valid email address"%string)
    else (true, EmptyString)
  else if String.eqb (name field) "name" && negb blank then
    if negb (test nameRegex value)
    then (false, "Name should only contain letters and spaces"%string)
    else (true, EmptyString)
  else if String.eqb (name field) "message" && negb blank
          && (List.length value <? 10)%nat then
    (false, "Message should be at least 10 characters long"%string)
  else (true, EmptyString).

Definition validateField (field : Field) (d : Display) : bool * Display :=
  let (isValid, errorMessage) := verdict field in
  (isValid, showFieldValidation d isValid errorMessage).

(** ** Forms

    An input of a form: the field, the node it is a child of, and its two
    classes.  The error element is not the field's: it is looked up under
    the parent ([field.parentNode.querySelector('.form__error')]) and
    created there when the parent has none, so the fields of one parent
    write to one and the same element.  [ErrorElements] holds the error
    element of every parent that has one.  The parents of the inputs are
    taken not to lie inside one another, so that the element found under a
    parent is the parent's own. *)
Record Input := mkInput {
  field : Field;
  parentNode : nat;
  classError : bool;
  classValid : bool
}.

Abbreviation ErrorElements := (gmap nat (string * bool)).

(** What [validateField] sees of an input. *)
Definition display (errors : ErrorElements) (input : Input) : Display :=
  {| errorClass := classError input; validClass := classValid input;
     errorElement := errors !! parentNode input |}.

(** What it leaves behind: the classes on the field, the error element
    under the parent. *)
Definition redisplay (input : Input) (errors : ErrorElements) (d : Display)
  : Input * ErrorElements :=
  ({| field := field input; parentNode := parentNode input;
      classError := errorClass d; classValid := validClass d |},
   match errorElement d with
   | Some element => <[parentNode input := element]> errors
   | None => errors
   end).

(** [validateField] on an input of a form. *)
Definition validateInput (input : Input) (errors : ErrorElements)
  : bool * (Input * ErrorElements) :=
  let (isValid, d) := validateField (field input) (display errors input) in
  (isValid, redisplay input errors d).

(** [validateForm]: every required field of the form is validated, in
    document order; the other fields are not looked at. *)
Fixpoint validateForm (inputs : list Input) (errors : ErrorElements)
  : bool * (list Input * ErrorElements) :=
  match inputs with
  | [] => (true, ([], errors))
  | input :: rest =>
      if required (field input) then
        let '(fieldValid, (input', errors')) := validateInput input errors in
        let '(restValid, (rest', errors'')) := validateForm rest errors' in
        (fieldValid && restValid, (input' :: rest', errors''))
      else
        let '(restValid, (rest', errors')) := validateForm rest errors in
        (restValid, (input :: rest', errors'))
  end.

(** [handleSubmit]: the form is sent when [validateForm] says so. *)
Definition handleSubmit (inputs : list Input) (errors : ErrorElements)
  : bool * (list Input * ErrorElements) := validateForm inputs errors.


(** The code units of a string of ASCII characters. *)
Definition units (s : string) : JsString :=
  map (λ a, N_of_ascii a) (list_ascii_of_string s).

End Form.

(** * script.js: the mobile menu

    The listeners of [MobileMenu.init] and what they do to the three
    pieces of the page they touch: the class [active] of the menu and of
    the hamburger button, the overflow style of the body, and the focus. *)

Module Menu.

Inductive Focus := Elsewhere | OnCloseButton | OnHamburger.

Record Page := mkPage {
  menuActive : bool;
  hamburgerActive : bool;
  bodyOverflow : string;
  focus : Focus
}.

(** [this.closeBtn?.focus()]: the close button may be missing. *)
Definition openMenu (closeBtn : bool) (p : Page) : Page :=
  {| menuActive := true; hamburgerActive := true;
     bodyOverflow := "hidden";
     focus := if closeBtn then OnCloseButton else focus p |}.

Definition closeMenu (p : Page) : Page :=
  {| menuActive := false; hamburgerActive := false;
     bodyOverflow := ""; focus := OnHamburger |}.

Definition toggleMenu (closeBtn : bool) (p : Page) : Page :=
  if menuActive p then closeMenu p else openMenu closeBtn p.

(** The events the listeners are registered for: a click on the hamburger,
    on the close button, on a link of the menu; a key press, with its
    [key]; a click inside the menu, on the backdrop itself or not. *)
Inductive MenuEvent :=
  | HamburgerClick
  | CloseClick
  | LinkClick
  | KeyDown (key : string)
  | MenuClick (onBackdrop : bool).

Definition handle (closeBtn : bool) (e : MenuEvent) (p : Page) : Page :=
  match e with
  | HamburgerClick => toggleMenu closeBtn p
  | CloseClick => if closeBtn then closeMenu p else p
  | LinkClick => closeMenu p
  | KeyDown key =>
      if String.eqb key "Escape" && menuActive p then closeMenu p else p
  | MenuClick onBackdrop => if onBackdrop then closeMenu p else p
  end.

(** The events of a visit, handled in order. *)
Definition run (closeBtn : bool) (events : list MenuEvent) (p : Page) : Page :=
  foldl (λ p e, handle closeBtn e p) p events.

(** The hamburger shows what the menu is, and the page scrolls exactly
    when the menu is closed. *)
Definition consistent (p : Page) : Prop :=
  hamburgerActive p = menuActive p ∧
  bodyOverflow p = if menuActive p then "hidden"%string else EmptyString.

End Menu.

(** * script.js: missing ARIA labels

    [setupARIALabels] gives a label to the buttons, links, inputs and text
    areas that have none.  An attribute or property that is absent ([null],
    [undefined]) is [None]; a string is falsy when it is empty. *)

Module Aria.

Record Element := mkElement {
  ariaLabel : option Form.JsString;
  ariaLabelledby : option Form.JsString;
  textContent : Form.JsString;
  value : option Form.JsString;
  placeholder : option Form.JsString
}.

Definition truthy (x : option Form.JsString) : bool :=
  match x with
  | Some (_ :: _) => true
  | _ => false
  end.

(** [a || b] *)
Definition or_else (a b : option Form.JsString) : option Form.JsString :=
  if truthy a then a else b.

(** The callback of [forEach], on one element. *)
Definition label (e : Element) : Element :=
  if negb (truthy (ariaLabel e)) && negb (truthy (ariaLabelledby e)) then
    let text := or_else (or_else (Some (textContent e)) (value e))
                  (placeholder e) in
    match text with
    | Some (c :: rest) =>
        {| ariaLabel := Some (Form.trim (c :: rest));
           ariaLabelledby := ariaLabelledby e;
           textContent := textContent e;
           value := value e;
           placeholder := placeholder e |}
    | _ => e
    end
  else e.

Definition setupARIALabels (elements : list Element) : list Element :=
  map label elements.

End Aria.

(** * performance-test.js: the layout shift score

    [measureCLS] keeps two local variables, [clsValue] and [clsEntries],
    which the callback of its observer updates, and stores
    [{ value: clsValue, entries: clsEntries }] in the metrics as soon as
    the observer is set up.  The number is copied at that moment; the
    array is shared.  The numbers are those of the platform: the type, its
    zero and its addition are parameters. *)

Module Vitals.

Section CLS.

Variable number : Type.
Variable zero : number.
Variable add : number → number → number.

Record LayoutShift := mkLayoutShift {
  hadRecentInput : bool;
  shift : number
}.

(** The two captured variables and the number stored in the metrics;
    [metrics.cls.entries] is [clsEntries] itself. *)
Record Cls := mkCls {
  clsValue : number;
  clsEntries : list LayoutShift;
  metricsValue : number
}.

(** [measureCLS()], up to the return. *)
Definition measureCLS : Cls :=
  let clsValue := zero in
  {| clsValue := clsValue; clsEntries := []; metricsValue := clsValue |}.

(** The callback of the observer, on one list of entries. *)
Definition observed (entryList : list LayoutShift) (s : Cls) : Cls :=
  foldl (λ s entry,
           if negb (hadRecentInput entry)
           then {| clsValue := add (clsValue s) (shift entry);
                   clsEntries := clsEntries s ++ [entry];
                   metricsValue := metricsValue s |}
           else s)
        s entryList.

(** The callbacks of a page load, in order. *)
Definition observe_all (batches : list (list LayoutShift)) : Cls :=
  foldl (λ s batch, observed batch s) measureCLS batches.

End CLS.

End Vitals.

(** * optimize-images.js: the size report

    For every listed image that exists the script prints its size in KB,
    rounded, and its recommendations.  [Math.round(size / 1024)] of a file
    size in bytes is computed on integers: the division by a power of two
    is exact on the numbers of the platform, and a half rounds up. *)

Module Images.

Inductive Line :=
  | SizeLine (image : string) (sizeKB : Z)
  | LargeFile
  | ConvertToWebP
  | ResponsiveVersions
  | BlankLine.

Definition sizeKB (size : Z) : Z := (size + 512) / 1024.

(** The callback of [forEach], on one image; [stat] is the size of the
    file when it exists. *)
Definition report (stat : string → option Z) (image : string) : list Line :=
  match stat image with
  | None => []
  | Some size =>
      [SizeLine image (sizeKB size)]
        ++ (if 150 <? sizeKB size then [LargeFile] else [])
        ++ (if 100 <? sizeKB size then [ConvertToWebP] else [])
        ++ [ResponsiveVersions; BlankLine]
  end.

Definition analysis (stat : string → option Z) (images : list string)
  : list Line := List.concat (map (report stat) images).

End Images.

(** * Concrete inputs for the other scripts *)

Module Sample.

(** A request of a script of the page for data: not a navigation. *)
Definition feed : Request :=
  {| method := "GET"; url := "https://example.com/api/feed";
     destination := "" |}.

Definition texts : list Typing.JsString :=
  [Form.units "Web"; Form.units "UI"].

Definition stuck : list Typing.JsString :=
  [Form.units "Web"; []; Form.units "UI"].

Definition email : Form.Field :=
  {| Form.value := Form.units " me@example.com ";
     Form.type := "email"; Form.name := "email"; Form.required := true |}.

Definition fullName : Form.Field :=
  {| Form.value := Form.units "Ada Lovelace";
     Form.type := "text"; Form.name := "name"; Form.required := true |}.

Definition message : Form.Field :=
  {| Form.value := Form.units "Hello there, world";
     Form.type := "textarea"; Form.name := "message"; Form.required := true |}.

Definition blankName : Form.Field :=
  {| Form.value := Form.units "   ";
     Form.type := "text"; Form.name := "name"; Form.required := true |}.

Definition optionalEmail : Form.Field :=
  {| Form.value := Form.units "not an address";
     Form.type := "email"; Form.name := "email"; Form.required := false |}.

Definition untouched : Form.Display :=
  {| Form.errorClass := false; Form.validClass := false;
     Form.errorElement := None |}.

(** A form whose two required fields, a blank name and a well-formed
    address, are children of one node, and an optional field of another
    node. *)
Definition nameInput : Form.Input :=
  {| Form.field := blankName; Form.parentNode := 0%nat;
     Form.classError := false; Form.classValid := false |}.

Definition emailInput : Form.Input :=
  {| Form.field := email; Form.parentNode := 0%nat;
     Form.classError := false; Form.classValid := false |}.

Definition optionalInput : Form.Input :=
  {| Form.field := optionalEmail; Form.parentNode := 1%nat;
     Form.classError := false; Form.classValid := false |}.

Definition closed : Menu.Page :=
  {| Menu.menuActive := false; Menu.hamburgerActive := false;
     Menu.bodyOverflow := ""; Menu.focus := Menu.Elsewhere |}.

Definition iconButton : Aria.Element :=
  {| Aria.ariaLabel := None; Aria.ariaLabelledby := None;
     Aria.textContent := Form.units "  ";
     Aria.value := Some []; Aria.placeholder := None |}.

End Sample.

(** ** Facts about the cache storage *)

Lemma storage_match_elem (cs : CacheStorage) key r :
  storage_match cs key = Some r →
  ∃ name c, (name, c) ∈ cs ∧ c !! key = Some r.
Proof.
  induction cs as [|[n c] rest IH]; simpl; [done|].
  destruct (c !! key) as [r'|] eqn:Hc.
  - intros [= <-]. exists n, c. split; [left|done].
  - intros H. destruct (IH H) as (n' & c' & Hin & Hl).
    exists n', c'. split; [by right|done].
Qed.


Lemma partition_lookup_match (cs : CacheStorage) name key r :
  partition_lookup cs name key = Some r →
  ∃ r', storage_match cs key = Some r'.
Proof.
  unfold partition_lookup.
  induction cs as [|[n c] rest IH]; simpl; [done|].
  destruct (c !! key) as [r'|] eqn:Hc; [eauto|].
  destruct (String.eqb n name); simpl; [congruence|done].
Qed.

Lemma storage_has_put (cs : CacheStorage) name key r m :
  storage_has (storage_put cs name key r) m = storage_has cs m.
Proof.
  unfold storage_has.
  induction cs as [|[n c] rest IH]; simpl; [done|].
  destruct (String.eqb n name); simpl; [done|by rewrite IH].
Qed.

Lemma storage_has_open (cs : CacheStorage) name :
  storage_has (storage_open cs name) name = true.
Proof.
  unfold storage_open. destruct (storage_has cs name) eqn:H; [done|].
  unfold storage_has. rewrite existsb_app. simpl.
  rewrite String.eqb_refl. by rewrite orb_true_r.
Qed.

Lemma storage_open_has (cs : CacheStorage) name :
  storage_has cs name = true → storage_open cs name = cs.
Proof. unfold storage_open. by intros ->. Qed.

Lemma storage_put_put (cs : CacheStorage) name key r :
  storage_put (storage_put cs name key r) name key r = storage_put cs name key r.
Proof.
  induction cs as [|[n c] rest IH]; simpl; [done|].
  destruct (String.eqb n name) eqn:Hn; simpl; rewrite Hn.
  - by rewrite insert_insert_eq.
  - by rewrite IH.
Qed.

Lemma partition_lookup_put (cs : CacheStorage) name key r :
  storage_has cs name = true →
  partition_lookup (storage_put cs name key r) name key = Some r.
Proof.
  unfold partition_lookup, storage_has.
  induction cs as [|[n c] rest IH]; simpl; [done|].
  destruct (String.eqb n name) eqn:Hn; simpl; rewrite Hn; simpl.
  - intros _. apply lookup_insert_eq.
  - apply IH.
Qed.

Lemma partition_lookup_put_ne (cs : CacheStorage) name key r name' key' :
  name ≠ name' ∨ key ≠ key' →
  partition_lookup (storage_put cs name key r) name' key'
  = partition_lookup cs name' key'.
Proof.
  unfold partition_lookup. intros Hne.
  induction cs as [|[n c] rest IH]; simpl; [done|].
  destruct (String.eqb n name) eqn:Hn; simpl.
  - destruct (String.eqb n name') eqn:Hn'; simpl; [|done].
    apply String.eqb_eq in Hn, Hn'. subst.
    destruct Hne as [?|?]; [done|]. by apply lookup_insert_ne.
  - destruct (String.eqb n name'); simpl; [done|apply IH].
Qed.



Lemma partition_lookup_open (cs : CacheStorage) name name' key :
  partition_lookup (storage_open cs name) name' key
  = partition_lookup cs name' key.
Proof.
  unfold storage_open. destruct (storage_has cs name) eqn:Hhas; [done|].
  unfold partition_lookup, storage_has in *.
  induction cs as [|[n c] rest IH]; simpl in *.
  - by destruct (String.eqb name name').
  - apply orb_false_elim in Hhas as [_ Hrest].
    destruct (String.eqb n name'); [done|auto].
Qed.

(** [includes] is substring containment. *)
Lemma prefix_app (sub s : string) :
  String.prefix sub s = true ↔ ∃ rest, s = sub +:+ rest.
Proof.
  revert s. induction sub as [|c sub IH]; intros [|c' s]; simpl.
  - split; [|done]. intros _. by exists EmptyString.
  - split; [|done]. intros _. by exists (String c' s).
  - split; [done|]. by intros [? [=]].
  - destruct (Ascii.ascii_dec c c') as [->|Hc].
    + rewrite IH. split.
      * intros [rest ->]. by exists rest.
      * intros [rest [= ->]]. by exists rest.
    + split; [done|]. intros [rest [= ? _]]. done.
Qed.

Lemma includes_substring (s sub : string) :
  includes s sub = true ↔ ∃ before rest, s = before +:+ sub +:+ rest.
Proof.
  induction s as [|c s IH]; cbn [includes].
  - rewrite orb_false_r, prefix_app. split.
    + intros [rest ->]. by exists EmptyString, rest.
    + intros ([|? before] & rest & H); [by exists rest|done].
  - rewrite orb_true_iff, prefix_app, IH. split.
    + intros [[rest ->] | (before & rest & ->)].
      * by exists EmptyString, rest.
      * by exists (String c before), rest.
    + intros ([|c' before] & rest & H); simpl in H.
      * left. by exists rest.
      * right. exists before, rest. by injection H.
Qed.

(** ** The fetch listener *)

(** Unfolds the handlers down to the cache storage operations. *)
Lemma accepts_get (request : Request) (r : Response) :
  method request = "GET" →
  accepts request r = true ↔
  http_scheme (url request) = true ∧ status r ≠ 206.
Proof.
  intros Hget. unfold accepts. rewrite Hget. simpl.
  by rewrite andb_true_iff, negb_true_iff, Z.eqb_neq.
Qed.

Lemma accepts_get_false (request : Request) (r : Response) :
  method request = "GET" →
  accepts request r = false ↔
  http_scheme (url request) = false ∨ status r = 206.
Proof.
  intros Hget. unfold accepts. rewrite Hget. simpl.
  by rewrite andb_false_iff, negb_false_iff, Z.eqb_eq.
Qed.

Ltac run_handlers :=
  cbv [dispatch_fetch respondWith onFetch strategy
       handleImageRequest handleAssetRequest handlePageRequest
       try_catch fetch caches_match caches_open cache_put cache_store
       unawaited get_caches set_caches emit throw clone
       mbind mret promise_bind promise_ret caches trace].

Section Fetch.

Variables DYNAMIC_CACHE origin : string.
Variable network : Request → option Response.

Lemma onFetch_get (request : Request) :
  method request = "GET" →
  onFetch DYNAMIC_CACHE origin network request
  = RespondWith (strategy DYNAMIC_CACHE origin network (classify request) request).
Proof.
  intros Hm. unfold onFetch, classify. rewrite Hm. simpl.
  destruct (String.eqb (destination request) "image"); [done|].
  by destruct (includes (url request) "/assets/").
Qed.

(** The two cache-first handlers are the same function. *)
Lemma handleAssetRequest_image (request : Request) :
  handleAssetRequest DYNAMIC_CACHE network request
  = handleImageRequest DYNAMIC_CACHE network request.
Proof. reflexivity. Qed.

Lemma cache_first_run (request : Request) (w : World) :
  handleImageRequest DYNAMIC_CACHE network request w =
  match storage_match (caches w) (url request) with
  | Some r => (Fulfilled (Some r), w)
  | None =>
      let w1 := {| caches := caches w; trace := trace w ++ [NetFetch request] |} in
      match network request with
      | None => (Fulfilled (Some (new_Response "" 404)), w1)
      | Some r =>
          if ok r
          then (Fulfilled (Some r),
                if accepts request r
                then {| caches := storage_put
                                    (storage_open (caches w) DYNAMIC_CACHE)
                                    DYNAMIC_CACHE (url request) r;
                        trace := trace w ++ [NetFetch request]
                                   ++ [CachePut DYNAMIC_CACHE (url request) r] |}
                else {| caches := storage_open (caches w) DYNAMIC_CACHE;
                        trace := trace w ++ [NetFetch request] |})
          else (Fulfilled (Some r), w1)
      end
  end.
Proof.
  run_handlers. destruct w as [cs tr]. simpl.
  destruct (storage_match cs (url request)); [done|].
  destruct (network request) as [r|]; [|done].
  destruct (ok r); [|done].
  destruct (accepts request r); [|done]. by rewrite <- app_assoc.
Qed.

Lemma network_first_run (request : Request) (w : World) :
  handlePageRequest DYNAMIC_CACHE origin network request w =
  let w1 := {| caches := caches w; trace := trace w ++ [NetFetch request] |} in
  match network request with
  | Some r =>
      if ok r
      then (Fulfilled (Some r),
            if accepts request r
            then {| caches := storage_put
                                (storage_open (caches w) DYNAMIC_CACHE)
                                DYNAMIC_CACHE (url request) r;
                    trace := trace w ++ [NetFetch request]
                               ++ [CachePut DYNAMIC_CACHE (url request) r] |}
            else {| caches := storage_open (caches w) DYNAMIC_CACHE;
                    trace := trace w ++ [NetFetch request] |})
      else (Fulfilled (Some r), w1)
  | None =>
      match storage_match (caches w) (url request) with
      | Some r => (Fulfilled (Some r), w1)
      | None =>
          if String.eqb (destination request) "document"
          then (Fulfilled (storage_match (caches w) (resolve origin "/index.html")), w1)
          else (Fulfilled (Some (new_Response "Offline" 503)), w1)
      end
  end.
Proof.
  run_handlers. destruct w as [cs tr]. simpl.
  destruct (network request) as [r|].
  - destruct (ok r); [|done].
    destruct (accepts request r); [|done]. by rewrite <- app_assoc.
  - destruct (storage_match cs (url request)); [done|].
    by destruct (String.eqb (destination request) "document").
Qed.

End Fetch.

(** C5. A GET request classified Image or Asset whose identity is held by
    the STATIC or the DYNAMIC partition is answered with a cached response
    for that identity (the one [caches.match] finds), and the world is left
    as it was: no network call is made and nothing is written. *)
Theorem cache_first_hit_no_network
    (STATIC_CACHE DYNAMIC_CACHE origin : string)
    (network : Request → option Response) (request : Request) (w : World) :
  method request = "GET" →
  classify request = Image ∨ classify request = Asset →
  is_Some (partition_lookup (caches w) STATIC_CACHE (url request)) ∨
  is_Some (partition_lookup (caches w) DYNAMIC_CACHE (url request)) →
  ∃ r name c,
    (name, c) ∈ caches w ∧ c !! url request = Some r ∧
    storage_match (caches w) (url request) = Some r ∧
    dispatch_fetch DYNAMIC_CACHE origin network request w = (Received r, w) ∧
    ∀ q, NetFetch q ∈ trace (snd (dispatch_fetch DYNAMIC_CACHE origin network request w)) →
         NetFetch q ∈ trace w.
Proof.
  intros Hget Hclass Hheld.
  assert (∃ r, storage_match (caches w) (url request) = Some r) as [r Hr].
  { destruct Hheld as [[r0 H]|[r0 H]]; eapply partition_lookup_match, H. }
  destruct (storage_match_elem _ _ _ Hr) as (name & c & Hin & Hc).
  assert (dispatch_fetch DYNAMIC_CACHE origin network request w = (Received r, w))
    as Hrun.
  { unfold dispatch_fetch. rewrite onFetch_get by done.
    unfold respondWith.
    destruct Hclass as [-> | ->]; simpl;
      rewrite ?handleAssetRequest_image, cache_first_run, Hr; done. }
  exists r, name, c. rewrite Hrun. done.
Qed.


(** What a handled GET request does to the world: nothing (a cache-first
    hit), a network call alone (the network failed or answered with a status
    that is not OK), a network call after which the DYNAMIC partition is
    opened and the put of the response is refused (a 206, or a URL that is
    not of the http or https scheme), or a network call followed by one
    put of its OK response into the DYNAMIC partition. *)
Lemma fetch_effects
    (DYNAMIC_CACHE origin : string)
    (network : Request → option Response) (request : Request) (w : World) :
  method request = "GET" →
  let w' := snd (dispatch_fetch DYNAMIC_CACHE origin network request w) in
  w' = w ∨
  (w' = {| caches := caches w; trace := trace w ++ [NetFetch request] |} ∧
   (network request = None ∨ ∃ r, network request = Some r ∧ ok r = false)) ∨
  (∃ r, network request = Some r ∧ ok r = true ∧
        (http_scheme (url request) = false ∨ status r = 206) ∧
        w' = {| caches := storage_open (caches w) DYNAMIC_CACHE;
                trace := trace w ++ [NetFetch request] |}) ∨
  (∃ r, network request = Some r ∧ ok r = true ∧
        (http_scheme (url request) = true ∧ status r ≠ 206) ∧
        w' = {| caches := storage_put (storage_open (caches w) DYNAMIC_CACHE)
                            DYNAMIC_CACHE (url request) r;
                trace := trace w ++ [NetFetch request]
                           ++ [CachePut DYNAMIC_CACHE (url request) r] |}).
Proof.
  intros Hget. simpl. unfold dispatch_fetch. rewrite onFetch_get by done.
  unfold respondWith.
  destruct (classify request); simpl;
    rewrite ?handleAssetRequest_image, ?cache_first_run, ?network_first_run;
    simpl.
  1, 2: destruct (storage_match (caches w) (url request));
        [left; by destruct w|].
  all: destruct (network request) as [r|] eqn:Hnet.
  all: try (destruct (ok r) eqn:Hok; simpl;
            [destruct (accepts request r) eqn:Htaken;
             [apply accepts_get in Htaken; [|done];
              right; right; right; by exists r
             |apply accepts_get_false in Htaken; [|done];
              right; right; left; by exists r]
            |right; left; split; eauto]).
  1, 2: right; left; split; eauto.
  right; left.
  destruct (storage_match (caches w) (url request)); simpl; [by eauto|].
  destruct (String.eqb (destination request) "document"); simpl; [|by eauto].
  destruct (storage_match (caches w) (resolve origin "/index.html")); eauto.
Qed.

(** C6, as the specification has it, fails: a successful network response
    is not always written into DYNAMIC.  A video under /assets/ that no
    cache holds is asked for with a range and answered with a 206, which
    is a status of the OK range; the page gets the response, and the put
    is refused by the cache. *)
Lemma partial_content_not_cached :
  ¬ (∀ (DYNAMIC_CACHE origin : string) (network : Request → option Response)
       (request : Request) (w : World) (r : Response),
       method request = "GET" →
       classify request = Image ∨ classify request = Asset →
       storage_match (caches w) (url request) = None →
       network request = Some r →
       ok r = true →
       body <$> partition_lookup
                  (caches (snd (dispatch_fetch DYNAMIC_CACHE origin network
                                  request w)))
                  DYNAMIC_CACHE (url request)
       = Some (body r)).
Proof.
  intros H.
  specialize (H Deployed.DYNAMIC_CACHE Example.site
                (Example.serves Example.partial) Example.trailer
                Example.fresh Example.partial
                eq_refl (or_intror eq_refl) eq_refl eq_refl eq_refl).
  vm_compute in H. discriminate H.
Qed.

(** A request for a URL that is not of the http or https scheme goes
    through the worker like any other and its response, OK or not, is
    never stored. *)
Example extension_request_not_cached :
  dispatch_fetch Deployed.DYNAMIC_CACHE Example.site
    (Example.serves Example.picture) Example.injected Example.installed
  = (Received Example.picture,
     {| caches := caches Example.installed ++ [(Deployed.DYNAMIC_CACHE, ∅)];
        trace := [NetFetch Example.injected] |}).
Proof. reflexivity. Qed.

(** C6, amended. For a GET request, whatever its class: the events the
    handler adds to the trace contain a write into a cache exactly when
    they contain the network fetch of the request, the network answered
    with an OK response other than a 206, and the URL of the request is of
    the http or https scheme; that write goes to the DYNAMIC partition
    under the identity of the request, and afterwards the partition holds
    the network response (same status, same body) under it.  A network
    failure or a response that is not OK leaves the caches as they were; a
    response the cache refuses leaves every entry of every partition as it
    was. *)
Theorem dynamic_written_iff_ok_network_response
    (DYNAMIC_CACHE origin : string)
    (network : Request → option Response) (request : Request) (w : World) :
  method request = "GET" →
  let w' := snd (dispatch_fetch DYNAMIC_CACHE origin network request w) in
  ∃ events,
    trace w' = trace w ++ events ∧
    (∀ name key r,
       CachePut name key r ∈ events ↔
       name = DYNAMIC_CACHE ∧ key = url request ∧
       NetFetch request ∈ events ∧ network request = Some r ∧
       ok r = true ∧ status r ≠ 206 ∧ http_scheme (url request) = true) ∧
    (∀ r, CachePut DYNAMIC_CACHE (url request) r ∈ events →
          partition_lookup (caches w') DYNAMIC_CACHE (url request) = Some r ∧
          body <$> partition_lookup (caches w') DYNAMIC_CACHE (url request)
          = body <$> network request) ∧
    ((network request = None ∨ ∃ r, network request = Some r ∧ ok r = false) →
     caches w' = caches w) ∧
    ((http_scheme (url request) = false ∨
      ∃ r, network request = Some r ∧ status r = 206) →
     ∀ name key, partition_lookup (caches w') name key
                 = partition_lookup (caches w) name key).
Proof.
  intros Hget w'.
  destruct (fetch_effects DYNAMIC_CACHE origin network request w Hget)
    as [Hw | [[Hw Hfail] | [(r & Hnet & Hok & Hrefused & Hw)
                           | (r & Hnet & Hok & [Hhttp Hfull] & Hw)]]];
    fold w' in Hw; rewrite Hw; clear Hw w'; simpl.
  - exists []. rewrite app_nil_r.
    split; [done|]. split; [|split; [|split]]; [| |done|done].
    + intros name key r. split; [by intros []%elem_of_nil|].
      by intros (_ & _ & []%elem_of_nil & _).
    + by intros r []%elem_of_nil.
  - exists [NetFetch request].
    split; [done|]. split; [|split; [|split]]; [| |done|done].
    + intros name key r. rewrite list_elem_of_singleton. split; [done|].
      intros (_ & _ & _ & Hnet & Hok & _).
      destruct Hfail as [Hnone | (r0 & Hsome & Hbad)]; congruence.
    + intros r. by rewrite list_elem_of_singleton.
  - exists [NetFetch request].
    split; [done|]. split; [|split; [|split]].
    + intros name key r'. rewrite list_elem_of_singleton. split; [done|].
      intros (_ & _ & _ & Hnet' & _ & Hfull & Hhttp).
      destruct Hrefused; congruence.
    + intros r'. by rewrite list_elem_of_singleton.
    + intros [Hnone | (r0 & Hsome & Hbad)]; congruence.
    + intros _ name key. apply partition_lookup_open.
  - exists [NetFetch request; CachePut DYNAMIC_CACHE (url request) r].
    assert (partition_lookup
              (storage_put (storage_open (caches w) DYNAMIC_CACHE)
                 DYNAMIC_CACHE (url request) r) DYNAMIC_CACHE (url request)
            = Some r) as Hput
      by apply partition_lookup_put, storage_has_open.
    split; [done|]. split; [|split; [|split]].
    + intros name key r'. rewrite !elem_of_cons, elem_of_nil. split.
      * intros [[=]|[[= -> -> ->]|[]]]. repeat split; auto.
      * intros (-> & -> & _ & Hr' & _). right; left. congruence.
    + intros r'. rewrite !elem_of_cons, elem_of_nil.
      intros [[=]|[[= <-]|[]]]. rewrite Hput, Hnet. done.
    + intros [Hnone | (r0 & Hsome & Hbad)]; congruence.
    + intros [Hbad | (r0 & Hsome & Hbad)]; congruence.
Qed.

(** C7, as the specification has it, fails: the identity of a Page request
    whose network call succeeds is not always updated in DYNAMIC.  A media
    file outside /assets/ asked for with a range is answered with a 206;
    the page gets it, and DYNAMIC holds nothing under its identity. *)
Lemma page_partial_content_not_stored :
  ¬ (∀ (DYNAMIC_CACHE origin : string) (network : Request → option Response)
       (request : Request) (w : World) (r : Response),
       method request = "GET" →
       classify request = Page →
       network request = Some r →
       ok r = true →
       let first := dispatch_fetch DYNAMIC_CACHE origin network request w in
       fst first = Received r ∧
       partition_lookup (caches (snd first)) DYNAMIC_CACHE (url request)
       = Some r).
Proof.
  intros H.
  destruct (H Deployed.DYNAMIC_CACHE Example.site
              (Example.serves Example.partial) Example.clip
              Example.installed Example.partial
              eq_refl eq_refl eq_refl eq_refl) as [_ Hstored].
  vm_compute in Hstored. discriminate Hstored.
Qed.

(** C7, amended. A GET request classified Page whose network call
    succeeds: the page gets the network response; when that response is OK
    and the cache accepts it (it is not a 206, and the URL of the request
    is of the http or https scheme) the DYNAMIC partition holds it under
    the identity of the request, and when the cache refuses it the
    partition holds under that identity what it held before; and a second,
    identical request against the same network gets the same answer and
    leaves every cache as the first one left it. *)
Theorem network_first_success_idempotent
    (DYNAMIC_CACHE origin : string)
    (network : Request → option Response) (request : Request) (w : World)
    (r : Response) :
  method request = "GET" →
  classify request = Page →
  network request = Some r →
  let first := dispatch_fetch DYNAMIC_CACHE origin network request w in
  let second := dispatch_fetch DYNAMIC_CACHE origin network request (snd first) in
  fst first = Received r ∧
  (ok r = true → status r ≠ 206 → http_scheme (url request) = true →
   partition_lookup (caches (snd first)) DYNAMIC_CACHE (url request) = Some r) ∧
  (status r = 206 ∨ http_scheme (url request) = false →
   partition_lookup (caches (snd first)) DYNAMIC_CACHE (url request)
   = partition_lookup (caches w) DYNAMIC_CACHE (url request)) ∧
  fst second = Received r ∧
  caches (snd second) = caches (snd first).
Proof.
  intros Hget Hpage Hnet. simpl.
  assert (∀ w0, dispatch_fetch DYNAMIC_CACHE origin network request w0
                = respondWith
                    (handlePageRequest DYNAMIC_CACHE origin network request) w0)
    as Hrun.
  { intros w0. unfold dispatch_fetch. by rewrite onFetch_get, Hpage by done. }
  rewrite !Hrun. unfold respondWith.
  rewrite (network_first_run _ _ _ _ w), Hnet. simpl.
  destruct (ok r) eqn:Hok; simpl;
    [destruct (accepts request r) eqn:Htaken|];
    rewrite network_first_run, Hnet, Hok, ?Htaken; simpl.
  - apply accepts_get in Htaken as [Hhttp Hfull]; [|done].
    split; [done|]. split; [|split; [|split; [done|]]].
    + intros _ _ _. apply partition_lookup_put, storage_has_open.
    + intros [?|?]; congruence.
    + rewrite storage_open_has.
      * apply storage_put_put.
      * rewrite storage_has_put. apply storage_has_open.
  - apply accepts_get_false in Htaken; [|done].
    split; [done|]. split; [|split; [|split; [done|]]].
    + intros _ ? ?. destruct Htaken; congruence.
    + intros _. apply partition_lookup_open.
    + apply storage_open_has, storage_has_open.
  - done.
Qed.


(** The same, end to end: the worker is installed and activated while the
    site serves the old home document, the page is then loaded once from a
    site that serves the new one, and loaded again with the network down.
    DYNAMIC holds the new document; the page gets the old one. *)
Example stale_home_after_update :
  let installed :=
    snd (lifecycle Deployed.STATIC_CACHE Deployed.DYNAMIC_CACHE Example.site
           (Example.serves Example.old_home) 3 Installing Example.fresh) in
  let visited :=
    snd (dispatch_fetch Deployed.DYNAMIC_CACHE Example.site
           (Example.serves Example.new_home) Example.home installed) in
  storage_keys (caches visited)
  = [Deployed.STATIC_CACHE; Deployed.DYNAMIC_CACHE] ∧
  partition_lookup (caches visited) Deployed.DYNAMIC_CACHE (url Example.home)
  = Some Example.new_home ∧
  fst (dispatch_fetch Deployed.DYNAMIC_CACHE Example.site Example.offline
         Example.home visited)
  = Received Example.old_home.
Proof. vm_compute. repeat split. Qed.




(** C1, on the code. A navigation (a Page request with the destination
    [document]) with the network down, no cache entry for its identity and
    no cached home document: the handler is fulfilled with [undefined], the
    miss of [caches.match('/index.html')], and the page gets a network
    error where the 503 response was promised. *)
Theorem offline_navigation_without_home_fails
    (DYNAMIC_CACHE origin : string)
    (network : Request → option Response) (request : Request) (w : World) :
  method request = "GET" →
  classify request = Page →
  destination request = "document" →
  network request = None →
  storage_match (caches w) (url request) = None →
  storage_match (caches w) (resolve origin "/index.html") = None →
  let w' := {| caches := caches w; trace := trace w ++ [NetFetch request] |} in
  handlePageRequest DYNAMIC_CACHE origin network request w
  = (Fulfilled None, w') ∧
  dispatch_fetch DYNAMIC_CACHE origin network request w = (NetworkError, w') ∧
  fst (dispatch_fetch DYNAMIC_CACHE origin network request w)
  ≠ Received (new_Response "Offline" 503).
Proof.
  intros Hget Hpage Hdoc Hdown Hmiss Hhome. simpl.
  assert (handlePageRequest DYNAMIC_CACHE origin network request w
          = (Fulfilled None,
             {| caches := caches w; trace := trace w ++ [NetFetch request] |}))
    as Hrun.
  { by rewrite network_first_run, Hdown, Hmiss, Hdoc, Hhome. }
  assert (dispatch_fetch DYNAMIC_CACHE origin network request w
          = (NetworkError,
             {| caches := caches w; trace := trace w ++ [NetFetch request] |}))
    as Hpage_gets.
  { unfold dispatch_fetch. rewrite onFetch_get, Hpage by done.
    unfold respondWith. simpl. by rewrite Hrun. }
  split; [done|]. split; [done|]. by rewrite Hpage_gets.
Qed.

(** Every other GET request is answered: the page gets a response unless
    the request is a Page navigation, the network is down, and neither the
    request nor /index.html is cached. *)
Lemma fetch_answered_unless_home_missing
    (DYNAMIC_CACHE origin : string)
    (network : Request → option Response) (request : Request) (w : World) :
  method request = "GET" →
  (∃ r, fst (dispatch_fetch DYNAMIC_CACHE origin network request w) = Received r) ∨
  (classify request = Page ∧ destination request = "document" ∧
   network request = None ∧
   storage_match (caches w) (url request) = None ∧
   storage_match (caches w) (resolve origin "/index.html") = None ∧
   fst (dispatch_fetch DYNAMIC_CACHE origin network request w) = NetworkError).
Proof.
  intros Hget. unfold dispatch_fetch. rewrite onFetch_get by done.
  unfold respondWith.
  destruct (classify request) eqn:Hclass; simpl;
    rewrite ?handleAssetRequest_image, ?cache_first_run, ?network_first_run;
    simpl.
  1, 2: destruct (storage_match (caches w) (url request)); [by eauto|];
        destruct (network request) as [r|]; [|by eauto];
        destruct (ok r); by eauto.
  destruct (network request) as [r|]; [destruct (ok r); by eauto|].
  destruct (storage_match (caches w) (url request)); [by eauto|].
  destruct (String.eqb (destination request) "document") eqn:Hdoc; [|by eauto].
  apply String.eqb_eq in Hdoc.
  destruct (storage_match (caches w) (resolve origin "/index.html")) eqn:Hhome;
    simpl; [by eauto|].
  by right.
Qed.

Example search_path :
  pathname (url Example.search) = "/search" ∧
  classify_by_path_prefix Example.search = Page ∧
  classify Example.search = Asset.
Proof. repeat split. Qed.

Example brochure_path :
  pathname (url Example.brochure) = "/assets/brochure.pdf" ∧
  classify_by_path_prefix Example.brochure = Asset ∧
  classify Example.brochure = Asset.
Proof. repeat split. Qed.

(** C4, as the specification has it, fails: the listener does not dispatch
    on the path of the request.  A script whose query string mentions
    /assets/ has no path under /assets/ and is handled cache-first all the
    same. *)
Lemma asset_routing_not_by_path_prefix :
  ¬ (∀ (DYNAMIC_CACHE origin : string) (network : Request → option Response)
       (request : Request),
       method request = "GET" →
       onFetch DYNAMIC_CACHE origin network request
       = RespondWith (strategy DYNAMIC_CACHE origin network
                        (classify_by_path_prefix request) request)).
Proof.
  intros H.
  specialize (H Deployed.DYNAMIC_CACHE Example.site Example.offline
                Example.search eq_refl).
  assert (classify_by_path_prefix Example.search = Page) as Hspec by reflexivity.
  rewrite Hspec in H. injection H as H.
  apply (f_equal (λ handler, fst (handler Example.fresh))) in H.
  vm_compute in H. discriminate H.
Qed.

(** C4, amended. A request that is not a GET is not intercepted: the
    listener returns without responding, the page gets what the browser's
    own network path gives, and the world is untouched.  A GET request is
    handed to the handler of its class, and the class is decided by two
    tests in this order: Image when the destination is [image]; otherwise
    Asset when the URL contains /assets/ anywhere; otherwise Page. *)
Theorem fetch_routing
    (DYNAMIC_CACHE origin : string)
    (network : Request → option Response) (request : Request) :
  (method request ≠ "GET" →
   onFetch DYNAMIC_CACHE origin network request = PassThrough ∧
   ∀ w, dispatch_fetch DYNAMIC_CACHE origin network request w
        = (match network request with
           | Some r => Received r
           | None => NetworkError
           end, w)) ∧
  (method request = "GET" →
   onFetch DYNAMIC_CACHE origin network request
   = RespondWith (strategy DYNAMIC_CACHE origin network
                    (classify request) request)) ∧
  (classify request = Image ↔ destination request = "image") ∧
  (classify request = Asset ↔
   destination request ≠ "image" ∧
   ∃ before rest, url request = before +:+ "/assets/" +:+ rest) ∧
  (classify request = Page ↔
   destination request ≠ "image" ∧
   ¬ ∃ before rest, url request = before +:+ "/assets/" +:+ rest).
Proof.
  rewrite <- includes_substring, not_true_iff_false.
  split; [|split; [apply onFetch_get|]].
  - intros Hm%String.eqb_neq.
    assert (onFetch DYNAMIC_CACHE origin network request = PassThrough) as Hpass.
    { unfold onFetch. by rewrite Hm. }
    split; [done|]. intros w. unfold dispatch_fetch. by rewrite Hpass.
  - unfold classify.
    destruct (String.eqb_spec (destination request) "image") as [Hd|Hd];
      [by repeat split; try done; intros []|].
    destruct (includes (url request) "/assets/");
      repeat split; try done; by intros [].
Qed.

Section PutMany.

Variable name : string.

Let put_entry (cs : CacheStorage) (e : string * Response) : CacheStorage :=
  storage_put cs name e.1 e.2.

Lemma storage_has_foldl_put (entries : list (string * Response)) cs m :
  storage_has (foldl put_entry cs entries) m = storage_has cs m.
Proof.
  revert cs. induction entries as [|e rest IH]; intros cs; simpl; [done|].
  rewrite IH. apply storage_has_put.
Qed.

Lemma partition_lookup_foldl_put_other (entries : list (string * Response))
    cs name' key :
  name ≠ name' ∨ (∀ e, e ∈ entries → e.1 ≠ key) →
  partition_lookup (foldl put_entry cs entries) name' key
  = partition_lookup cs name' key.
Proof.
  revert cs. induction entries as [|e rest IH]; intros cs Hne; simpl; [done|].
  rewrite IH.
  - apply partition_lookup_put_ne.
    destruct Hne as [?|Hkeys]; [by left|right]. apply Hkeys. left.
  - destruct Hne as [?|Hkeys]; [by left|right].
    intros e' He'. apply Hkeys. by right.
Qed.

Lemma partition_lookup_foldl_put (entries : list (string * Response)) cs key r :
  storage_has cs name = true →
  (∀ e, e ∈ entries → e.1 = key → e.2 = r) →
  (∃ e, e ∈ entries ∧ e.1 = key) ∨ partition_lookup cs name key = Some r →
  partition_lookup (foldl put_entry cs entries) name key = Some r.
Proof.
  revert cs. induction entries as [|e rest IH]; intros cs Hhas Hfun Hsrc; simpl.
  - destruct Hsrc as [(e & []%elem_of_nil & _)|]; done.
  - apply IH.
    + unfold put_entry. by rewrite storage_has_put.
    + intros e' He'. apply Hfun. by right.
    + destruct (decide (e.1 = key)) as [Hk|Hk].
      * right. unfold put_entry. rewrite Hk, (Hfun e); [|left|done].
        by apply partition_lookup_put.
      * destruct Hsrc as [(e' & [->|He']%elem_of_cons & Hk')|Hold];
          [done|left; eauto|].
        right. unfold put_entry. rewrite partition_lookup_put_ne; auto.
Qed.

End PutMany.

(** ** The install and activate listeners *)

Section Lifecycle.

Variables STATIC_CACHE DYNAMIC_CACHE origin : string.
Variable network : Request → option Response.

Lemma fetch_settled_all (requests : list Request) (w : World) :
  promise_all (map (fetch_settled network) requests) w
  = (Fulfilled (map network requests),
     {| caches := caches w; trace := trace w ++ map NetFetch requests |}).
Proof.
  revert w. induction requests as [|q rest IH]; intros [cs tr]; simpl.
  - unfold mret, promise_ret. by rewrite app_nil_r.
  - unfold mbind, promise_bind at 1.
    assert (fetch_settled network q {| caches := cs; trace := tr |}
            = (Fulfilled (network q),
               {| caches := cs; trace := tr ++ [NetFetch q] |})) as ->.
    { cbv [fetch_settled try_catch fetch emit throw mbind mret promise_bind
           promise_ret caches trace].
      by destruct (network q). }
    unfold mbind, promise_bind at 1. rewrite IH. simpl.
    unfold mret, promise_ret. by rewrite <- app_assoc.
Qed.

Lemma put_each_run (cache : string) (paths : list string) (w : World) :
  put_each cache
    (zip (map (new_Request origin) paths)
         (map network (map (new_Request origin) paths))) w
  = (Fulfilled (),
     {| caches := foldl (λ cs e, storage_put cs cache e.1 e.2) (caches w)
                    (stored_by_addAll origin network paths);
        trace := trace w ++ map (λ e, CachePut cache e.1 e.2)
                              (stored_by_addAll origin network paths) |}).
Proof.
  revert w. induction paths as [|path rest IH]; intros [cs tr]; simpl.
  - unfold mret, promise_ret. by rewrite app_nil_r.
  - unfold stored_by_addAll. simpl.
    destruct (network (new_Request origin path)) as [r|]; simpl.
    + cbv [mbind promise_bind cache_store get_caches set_caches emit caches
           trace].
      rewrite IH. simpl. by rewrite <- app_assoc.
    + apply IH.
Qed.

Lemma usable_all (paths : list string) :
  forallb usable (map network (map (new_Request origin) paths))
  = forallb (λ path, usable (network (new_Request origin path))) paths.
Proof. induction paths as [|path rest IH]; simpl; [done|by rewrite IH]. Qed.

Lemma cache_addAll_run (cache : string) (paths : list string) (w : World) :
  cache_addAll origin network cache paths w =
  let requests := map (new_Request origin) paths in
  if forallb (λ path, usable (network (new_Request origin path))) paths
  then (Fulfilled (),
        {| caches := foldl (λ cs e, storage_put cs cache e.1 e.2) (caches w)
                       (stored_by_addAll origin network paths);
           trace := trace w ++ map NetFetch requests
                      ++ map (λ e, CachePut cache e.1 e.2)
                           (stored_by_addAll origin network paths) |})
  else (Rejected TypeError,
        {| caches := caches w; trace := trace w ++ map NetFetch requests |}).
Proof.
  unfold cache_addAll. cbv [mbind promise_bind].
  rewrite fetch_settled_all, usable_all. cbv zeta.
  destruct (forallb _ paths); [|done].
  rewrite put_each_run. cbv [caches trace]. by rewrite <- app_assoc.
Qed.

Lemma onInstall_run (w : World) :
  onInstall STATIC_CACHE origin network w =
  let requests := map (new_Request origin) STATIC_ASSETS in
  let opened := storage_open (caches w) STATIC_CACHE in
  if assets_reachable origin network
  then (Fulfilled (),
        {| caches := foldl (λ cs e, storage_put cs STATIC_CACHE e.1 e.2) opened
                       (stored_by_addAll origin network STATIC_ASSETS);
           trace := trace w ++ map NetFetch requests
                      ++ map (λ e, CachePut STATIC_CACHE e.1 e.2)
                           (stored_by_addAll origin network STATIC_ASSETS)
                      ++ [SkipWaiting] |})
  else (Rejected TypeError,
        {| caches := opened; trace := trace w ++ map NetFetch requests |}).
Proof.
  unfold onInstall, caches_open, assets_reachable.
  cbv [mbind promise_bind get_caches set_caches mret promise_ret].
  rewrite cache_addAll_run. cbv zeta.
  destruct (forallb _ STATIC_ASSETS); [|done].
  cbv [skipWaiting emit caches trace]. by rewrite <- !app_assoc.
Qed.

Lemma elem_of_stored_by_addAll (paths : list string) (e : string * Response) :
  e ∈ stored_by_addAll origin network paths ↔
  ∃ path, path ∈ paths ∧ network (new_Request origin path) = Some e.2 ∧
          e.1 = resolve origin path.
Proof.
  unfold stored_by_addAll. rewrite list_elem_of_omap. destruct e as [key r].
  split; intros (path & Hin & H); exists path; (split; [done|]); simpl in *.
  - destruct (network (new_Request origin path)); simplify_eq/=. done.
  - destruct H as [-> ->]. done.
Qed.

Lemma usable_Some (x : option Response) :
  usable x = true ↔ ∃ r, x = Some r ∧ ok r = true ∧ status r ≠ 206.
Proof.
  destruct x as [r|]; simpl.
  - rewrite andb_true_iff, negb_true_iff, Z.eqb_neq. split.
    + intros [? ?]. by exists r.
    + by intros (? & [= <-] & ? & ?).
  - split; [done|]. by intros (? & [=] & _).
Qed.

Lemma assets_reachable_all :
  assets_reachable origin network = true ↔
  ∀ path, path ∈ STATIC_ASSETS →
    ∃ r, network (new_Request origin path) = Some r ∧ ok r = true ∧
         status r ≠ 206.
Proof.
  unfold assets_reachable. rewrite forallb_forall. split.
  - intros Hall path Hin%list_elem_of_In. by apply usable_Some, Hall.
  - intros Hall path Hin%list_elem_of_In. by apply usable_Some, Hall.
Qed.

Lemma assets_reachable_elem (path : string) :
  assets_reachable origin network = true →
  path ∈ STATIC_ASSETS →
  ∃ r, network (new_Request origin path) = Some r ∧ ok r = true.
Proof.
  intros Hall Hin. destruct (proj1 assets_reachable_all Hall path Hin)
    as (r & Hnet & Hok & _). eauto.
Qed.

(** The failed state is terminal. *)
Lemma lifecycle_failed_stays (n : nat) (w : World) :
  lifecycle STATIC_CACHE DYNAMIC_CACHE origin network n InstallFailed w
  = (InstallFailed, w).
Proof. induction n as [|n IH]; [done|]. simpl. apply IH. Qed.

End Lifecycle.

(** C2, as the specification has it, fails on the count: the list of
    required assets names five identities, the home document under both /
    and /index.html, and a successful install into an empty storage leaves
    five entries in the STATIC partition. *)
Lemma install_stores_five_identities :
  ¬ (∀ (STATIC_CACHE origin : string) (network : Request → option Response)
       (w' : World),
       assets_reachable origin network = true →
       onInstall STATIC_CACHE origin network Example.fresh = (Fulfilled (), w') →
       ∃ c, storage_get (caches w') STATIC_CACHE = Some c ∧ size c = 4%nat).
Proof.
  intros H.
  destruct (H Deployed.STATIC_CACHE Example.site Example.online _
              eq_refl eq_refl) as (c & Hc & Hsize).
  vm_compute in Hc. injection Hc as <-. vm_compute in Hsize. discriminate Hsize.
Qed.

Example install_fresh_identities :
  let installed :=
    snd (onInstall Deployed.STATIC_CACHE Example.site Example.online
           Example.fresh) in
  dom <$> storage_get (caches installed) Deployed.STATIC_CACHE
  = Some (list_to_set (C := gset string)
            ["https://example.com/"; "https://example.com/index.html";
             "https://example.com/style.css"; "https://example.com/script.js";
             "https://example.com/assets/resume.pdf"]).
Proof. vm_compute. reflexivity. Qed.

(** An asset that comes back as a 206 fails the install like one that
    cannot be fetched: [cache.addAll] rejects, nothing is stored and the
    worker is discarded. *)
Example install_refuses_partial_content :
  assets_reachable Example.site Example.resume_in_part = false ∧
  lifecycle Deployed.STATIC_CACHE Deployed.DYNAMIC_CACHE Example.site
    Example.resume_in_part 3 Installing Example.fresh
  = (InstallFailed,
     {| caches := [(Deployed.STATIC_CACHE, ∅)];
        trace := map NetFetch (map (new_Request Example.site) STATIC_ASSETS) |}).
Proof. split; reflexivity. Qed.

(** C2, amended. The install step fetches the five identities of
    [STATIC_ASSETS] (the home document as / and as /index.html, the
    stylesheet, the script and one static asset).  The assets are
    reachable when every one of them comes back with an OK status other
    than 206.  Then each is stored in the STATIC partition under its
    identity, nothing else is written, the worker asks to skip waiting and
    is installed.  When one of them cannot be fetched, or comes back with
    a status that is not OK or with a 206, the install promise rejects
    without a single put: every partition holds what it held before, the
    worker ends in the failed state and stays there, so that its activate
    listener never runs. *)
Theorem install_all_or_nothing
    (STATIC_CACHE DYNAMIC_CACHE origin : string)
    (network : Request → option Response) (w : World) :
  List.length STATIC_ASSETS = 5%nat ∧
  (assets_reachable origin network = true ↔
   ∀ path, path ∈ STATIC_ASSETS →
     ∃ r, network (new_Request origin path) = Some r ∧ ok r = true ∧
          status r ≠ 206) ∧
  (assets_reachable origin network = true →
   ∃ w',
     onInstall STATIC_CACHE origin network w = (Fulfilled (), w') ∧
     lifecycle_step STATIC_CACHE DYNAMIC_CACHE origin network Installing w
     = (Waiting, w') ∧
     (∀ path, path ∈ STATIC_ASSETS →
        partition_lookup (caches w') STATIC_CACHE (resolve origin path)
        = network (new_Request origin path)) ∧
     (∀ name key,
        name ≠ STATIC_CACHE ∨ key ∉ map (resolve origin) STATIC_ASSETS →
        partition_lookup (caches w') name key
        = partition_lookup (caches w) name key) ∧
     SkipWaiting ∈ trace w') ∧
  (assets_reachable origin network = false →
   let failed :=
     {| caches := storage_open (caches w) STATIC_CACHE;
        trace := trace w ++ map NetFetch (map (new_Request origin) STATIC_ASSETS) |} in
   onInstall STATIC_CACHE origin network w = (Rejected TypeError, failed) ∧
   (∀ name key,
      partition_lookup (caches failed) name key
      = partition_lookup (caches w) name key) ∧
   ∀ n, lifecycle STATIC_CACHE DYNAMIC_CACHE origin network (S n) Installing w
        = (InstallFailed, failed)).
Proof.
  split; [done|]. split; [apply assets_reachable_all|].
  pose proof (onInstall_run STATIC_CACHE origin network w) as Hrun.
  cbv zeta in Hrun. split; intros Hreach; rewrite Hreach in Hrun.
  - eexists. split; [exact Hrun|].
    split; [by unfold lifecycle_step; rewrite Hrun|]. cbv [caches trace].
    split; [|split].
    + intros path Hin.
      destruct (assets_reachable_elem origin network path Hreach Hin)
        as (r & Hnet & _).
      rewrite Hnet. apply partition_lookup_foldl_put.
      * apply storage_has_open.
      * intros [key r'] (path' & _ & Hnet' & Hkey)%elem_of_stored_by_addAll Hsame.
        simpl in *.
        assert (new_Request origin path' = new_Request origin path) as Heq.
        { unfold new_Request. f_equal. congruence. }
        congruence.
      * left. exists (resolve origin path, r). split; [|done].
        apply elem_of_stored_by_addAll. by exists path.
    + intros name key Hne.
      rewrite partition_lookup_foldl_put_other, partition_lookup_open; [done|].
      destruct Hne as [?|Hkey]; [by left|right].
      intros e (path & Hin & _ & He)%elem_of_stored_by_addAll <-.
      apply Hkey. rewrite He. apply list_elem_of_In, in_map.
      by apply list_elem_of_In.
    + rewrite !elem_of_app. right; right; right. left.
  - cbv zeta. split; [exact Hrun|]. split.
    + intros name key. apply partition_lookup_open.
    + intros n. simpl. rewrite Hrun. apply lifecycle_failed_stays.
Qed.

Lemma filter_ext_elem {A} (P Q : A → Prop)
    `{!∀ x, Decision (P x), !∀ x, Decision (Q x)} (l : list A) :
  (∀ x, x ∈ l → (P x ↔ Q x)) → filter P l = filter Q l.
Proof.
  induction l as [|a l IH]; intros Hext; [done|].
  rewrite !filter_cons, IH by (intros x Hx; apply Hext; by right).
  apply decide_ext, Hext. left.
Qed.

Lemma filter_all {A} (P : A → Prop) `{!∀ x, Decision (P x)} (l : list A) :
  (∀ x, x ∈ l → P x) → filter P l = l.
Proof.
  induction l as [|a l IH]; intros Hall; [done|].
  rewrite filter_cons_True by (apply Hall; left).
  f_equal. apply IH. intros x Hx. apply Hall. by right.
Qed.

Lemma promise_bind_run {A B} (p : Promise A) (k : A → Promise B) (w : World) :
  (p ≫= k) w
  = match p w with
    | (Fulfilled a, w') => k a w'
    | (Rejected e, w') => (Rejected e, w')
    end.
Proof. reflexivity. Qed.

Lemma caches_delete_run (name : string) (w : World) :
  caches_delete name w
  = (Fulfilled (storage_has (caches w) name),
     {| caches := storage_delete (caches w) name;
        trace := trace w ++ [CacheDelete name] |}).
Proof. reflexivity. Qed.

Section Activate.

Variables STATIC_CACHE DYNAMIC_CACHE : string.

Local Abbreviation current name :=
  (name = STATIC_CACHE ∨ name = DYNAMIC_CACHE).

(** The deletions of the activate listener, over any list of names: a cache
    goes when its name is on the list and is not a current one. *)
Lemma activate_sweep (names : list string) (w : World) :
  ∃ results,
    promise_all
      (map (λ cacheName : string,
              if bool_decide (cacheName ≠ STATIC_CACHE) &&
                 bool_decide (cacheName ≠ DYNAMIC_CACHE)
              then deleted ← caches_delete cacheName; mret (Some deleted)
              else mret None)
           names) w
    = (Fulfilled results,
       {| caches := filter (λ p, current p.1 ∨ p.1 ∉ names) (caches w);
          trace := trace w
                     ++ map CacheDelete (filter (λ n, ¬ current n) names) |}).
Proof.
  revert w. induction names as [|name rest IH]; intros [cs tr]; simpl.
  - eexists. unfold mret, promise_ret. rewrite app_nil_r. do 2 f_equal.
    symmetry. apply filter_all. intros p _. right. apply not_elem_of_nil.
  - rewrite promise_bind_run.
    destruct (bool_decide (name ≠ STATIC_CACHE) &&
              bool_decide (name ≠ DYNAMIC_CACHE)) eqn:Hstale.
    + apply andb_true_iff in Hstale
        as [Hs%bool_decide_eq_true Hd%bool_decide_eq_true].
      rewrite promise_bind_run, caches_delete_run. simpl.
      destruct (IH {| caches := storage_delete cs name;
                      trace := tr ++ [CacheDelete name] |})
        as [results Hrest].
      unfold mret at 1, promise_ret at 1.
      rewrite promise_bind_run, Hrest.
      eexists. unfold mret, promise_ret. f_equal. simpl. f_equal.
      * unfold storage_delete. rewrite list_filter_filter.
        apply list_filter_iff. intros p. rewrite elem_of_cons.
        destruct (decide (p.1 = name)); intuition congruence.
      * rewrite filter_cons_True by tauto.
        simpl. by rewrite <- app_assoc.
    + assert (current name) as Hcur.
      { apply andb_false_iff in Hstale
          as [H%bool_decide_eq_false|H%bool_decide_eq_false];
          apply dec_stable in H; [by left|by right]. }
      destruct (IH {| caches := cs; trace := tr |}) as [results Hrest].
      unfold mret at 1, promise_ret at 1.
      rewrite promise_bind_run, Hrest.
      eexists. unfold mret, promise_ret. f_equal. simpl. f_equal.
      * apply list_filter_iff. intros p. rewrite elem_of_cons.
        destruct (decide (p.1 = name)) as [->|]; intuition congruence.
      * by rewrite filter_cons_False by tauto.
Qed.

Lemma onActivate_run (w : World) :
  onActivate STATIC_CACHE DYNAMIC_CACHE w
  = (Fulfilled (),
     {| caches := filter (λ p, current p.1) (caches w);
        trace := trace w
                   ++ map CacheDelete
                        (filter (λ n, ¬ current n) (storage_keys (caches w)))
                   ++ [ClientsClaim] |}).
Proof.
  unfold onActivate, caches_keys.
  destruct (activate_sweep (storage_keys (caches w)) w) as [results Hsweep].
  rewrite !promise_bind_run. unfold get_caches, mret at 1, promise_ret at 1.
  rewrite promise_bind_run, Hsweep.
  cbv [clients_claim emit caches trace]. f_equal. f_equal.
  - apply filter_ext_elem. intros p Hp. split; [|by left].
    intros [?|Hnot]; [done|]. exfalso. apply Hnot.
    unfold storage_keys. apply list_elem_of_In, in_map.
    by apply list_elem_of_In.
  - by rewrite <- app_assoc.
Qed.

End Activate.

(** C3. The activate step deletes every cache whose name is neither the
    current STATIC nor the current DYNAMIC version token and keeps the
    others as they are, then claims the clients.  With static-v2 and
    dynamic-v2 current and the four caches of both versions present, the
    names listed afterwards are the two v2 names and no v1 name. *)
Theorem activate_deletes_stale_partitions
    (STATIC_CACHE DYNAMIC_CACHE : string) (w : World) :
  let w' := snd (onActivate STATIC_CACHE DYNAMIC_CACHE w) in
  fst (onActivate STATIC_CACHE DYNAMIC_CACHE w) = Fulfilled () ∧
  caches w'
  = filter (λ p, p.1 = STATIC_CACHE ∨ p.1 = DYNAMIC_CACHE) (caches w) ∧
  (∀ name,
     name ∈ storage_keys (caches w') ↔
     name ∈ storage_keys (caches w) ∧
     (name = STATIC_CACHE ∨ name = DYNAMIC_CACHE)) ∧
  (∀ name,
     CacheDelete name ∈ trace w' ↔
     CacheDelete name ∈ trace w ∨
     (name ∈ storage_keys (caches w) ∧
      name ≠ STATIC_CACHE ∧ name ≠ DYNAMIC_CACHE)) ∧
  last (trace w') = Some ClientsClaim ∧
  ∀ (v1s v1d v2s v2d : Cache) (events : list Event),
    storage_keys
      (caches
         (snd (onActivate "static-v2" "dynamic-v2"
                 {| caches := [("static-v1", v1s); ("dynamic-v1", v1d);
                               ("static-v2", v2s); ("dynamic-v2", v2d)];
                    trace := events |})))
    = ["static-v2"; "dynamic-v2"].
Proof.
  cbv zeta. rewrite onActivate_run. cbv [fst snd caches trace].
  split; [done|]. split; [done|]. split; [|split; [|split]].
  - intros name. unfold storage_keys.
    rewrite !list_elem_of_fmap. split.
    + intros ([n c] & -> & [Hcur Hin]%list_elem_of_filter).
      split; [|done]. by exists (n, c).
    + intros (([n c] & -> & Hin) & Hcur). exists (n, c). split; [done|].
      by apply list_elem_of_filter.
  - intros name. rewrite !elem_of_app, list_elem_of_fmap. split.
    + intros [?|[(n & [= ->] & [Hst Hin]%list_elem_of_filter)|Hclaim]].
      * by left.
      * right. split; [done|]. split; intros ->; apply Hst; auto.
      * apply list_elem_of_singleton in Hclaim. discriminate Hclaim.
    + intros [?|(Hin & Hs & Hd)]; [by left|right; left].
      exists name. split; [done|]. apply list_elem_of_filter.
      split; [|done]. by intros [?|?].
  - by rewrite !app_assoc, last_snoc.
  - intros v1s v1d v2s v2d events. rewrite onActivate_run. reflexivity.
Qed.

(** ** The theorems at concrete requests *)

Lemma cache_first_hit_no_network_witness :
  ∃ r, dispatch_fetch Deployed.DYNAMIC_CACHE Example.site Example.offline
         Example.photo Example.browsed
       = (Received r, Example.browsed).
Proof.
  destruct (cache_first_hit_no_network
              Deployed.STATIC_CACHE Deployed.DYNAMIC_CACHE Example.site
              Example.offline Example.photo Example.browsed)
    as (r & _ & _ & _ & _ & _ & Hrun & _).
  - reflexivity.
  - left. reflexivity.
  - right. exists Example.picture. vm_compute. reflexivity.
  - exists r. exact Hrun.
Defined.


Lemma dynamic_written_iff_ok_network_response_witness :
  ∃ events,
    trace (snd (dispatch_fetch Deployed.DYNAMIC_CACHE Example.site
                  Example.online Example.about Example.fresh))
    = trace Example.fresh ++ events ∧
    (CachePut Deployed.DYNAMIC_CACHE (url Example.about)
       {| status := 200; body := url Example.about |} ∈ events ↔
     NetFetch Example.about ∈ events).
Proof.
  destruct (dynamic_written_iff_ok_network_response
              Deployed.DYNAMIC_CACHE Example.site Example.online
              Example.about Example.fresh eq_refl)
    as (events & Htrace & Hput & _).
  exists events. split; [exact Htrace|]. rewrite Hput. split.
  - intros (_ & _ & Hfetch & _). exact Hfetch.
  - intros Hfetch. repeat split; [exact Hfetch|]. vm_compute. lia.
Defined.

Lemma network_first_success_idempotent_witness :
  let first :=
    dispatch_fetch Deployed.DYNAMIC_CACHE Example.site
      (Example.serves Example.new_home) Example.home Example.installed in
  fst first = Received Example.new_home ∧
  partition_lookup (caches (snd first)) Deployed.DYNAMIC_CACHE
    (url Example.home) = Some Example.new_home.
Proof.
  destruct (network_first_success_idempotent
              Deployed.DYNAMIC_CACHE Example.site
              (Example.serves Example.new_home) Example.home Example.installed
              Example.new_home eq_refl eq_refl eq_refl)
    as (Hfirst & Hstored & _).
  split; [exact Hfirst|].
  apply Hstored; [reflexivity| |reflexivity]. vm_compute. lia.
Defined.



Lemma fetch_routing_witness :
  onFetch Deployed.DYNAMIC_CACHE Example.site Example.online Example.contact
  = PassThrough ∧
  onFetch Deployed.DYNAMIC_CACHE Example.site Example.online Example.search
  = RespondWith (handleAssetRequest Deployed.DYNAMIC_CACHE Example.online
                   Example.search).
Proof.
  split.
  - apply (fetch_routing Deployed.DYNAMIC_CACHE Example.site Example.online
             Example.contact).
    discriminate.
  - apply (fetch_routing Deployed.DYNAMIC_CACHE Example.site Example.online
             Example.search).
    reflexivity.
Defined.

Lemma install_all_or_nothing_witness :
  (∃ w', lifecycle_step Deployed.STATIC_CACHE Deployed.DYNAMIC_CACHE
           Example.site Example.online Installing Example.fresh
         = (Waiting, w')) ∧
  ∀ n, lifecycle Deployed.STATIC_CACHE Deployed.DYNAMIC_CACHE Example.site
         Example.stylesheet_unreachable (S n) Installing Example.fresh
       = (InstallFailed,
          {| caches := [(Deployed.STATIC_CACHE, ∅)];
             trace := map NetFetch (map (new_Request Example.site) STATIC_ASSETS) |}).
Proof.
  split.
  - destruct (install_all_or_nothing
                Deployed.STATIC_CACHE Deployed.DYNAMIC_CACHE Example.site
                Example.online Example.fresh)
      as (_ & _ & Hok & _).
    destruct (Hok eq_refl) as (w' & _ & Hstep & _).
    exists w'. exact Hstep.
  - destruct (install_all_or_nothing
                Deployed.STATIC_CACHE Deployed.DYNAMIC_CACHE Example.site
                Example.stylesheet_unreachable Example.fresh)
      as (_ & _ & _ & Hfail).
    destruct (Hfail eq_refl) as (_ & _ & Hstays). exact Hstays.
Defined.

Lemma offline_navigation_without_home_fails_witness :
  dispatch_fetch Deployed.DYNAMIC_CACHE Example.site Example.offline
    Example.about Example.fresh
  = (NetworkError, {| caches := []; trace := [NetFetch Example.about] |}).
Proof.
  apply (offline_navigation_without_home_fails
           Deployed.DYNAMIC_CACHE Example.site Example.offline
           Example.about Example.fresh);
    reflexivity.
Defined.

(** ** Further properties of the worker *)

Lemma storage_keys_put (cs : CacheStorage) name key r :
  storage_keys (storage_put cs name key r) = storage_keys cs.
Proof.
  unfold storage_keys.
  induction cs as [|[n c] rest IH]; simpl; [done|].
  destruct (String.eqb n name); simpl; [done|by rewrite IH].
Qed.


Lemma storage_get_absent (cs : CacheStorage) name :
  storage_has cs name = false → storage_get cs name = None.
Proof.
  unfold storage_has.
  induction cs as [|[n c] rest IH]; simpl; [done|].
  intros [Hn Hrest]%orb_false_elim. rewrite Hn. by apply IH.
Qed.

Lemma storage_keys_open (cs : CacheStorage) name :
  storage_keys (storage_open cs name)
  = if storage_has cs name then storage_keys cs else storage_keys cs ++ [name].
Proof.
  unfold storage_open. destruct (storage_has cs name); [done|].
  unfold storage_keys. by rewrite map_app.
Qed.

Lemma storage_match_open (cs : CacheStorage) name key :
  storage_match (storage_open cs name) key = storage_match cs key.
Proof.
  unfold storage_open. destruct (storage_has cs name); [done|].
  induction cs as [|[n c] rest IH]; simpl; [done|].
  destruct (c !! key); [done|apply IH].
Qed.

(** A put never makes [caches.match] lose an answer. *)
Lemma storage_match_put_is_Some (cs : CacheStorage) name key r key' :
  is_Some (storage_match cs key') →
  is_Some (storage_match (storage_put cs name key r) key').
Proof.
  induction cs as [|[n c] rest IH]; simpl; [done|].
  destruct (String.eqb n name); simpl.
  - destruct (decide (key = key')) as [->|Hne].
    + by rewrite lookup_insert_eq.
    + by rewrite lookup_insert_ne.
  - destruct (c !! key'); [done|apply IH].
Qed.


(** An entry of a cache that was there before the cache written to was
    created keeps answering. *)
Lemma storage_match_put_shadowed (cs : CacheStorage) name key r r0 :
  storage_has cs name = false →
  storage_match cs key = Some r0 →
  storage_match (storage_put (storage_open cs name) name key r) key = Some r0.
Proof.
  unfold storage_open. intros Hhas. rewrite Hhas. revert Hhas.
  unfold storage_has.
  induction cs as [|[n c] rest IH]; simpl; [done|].
  intros [Hn Hrest]%orb_false_elim. rewrite Hn. simpl.
  destruct (c !! key); [done|by apply IH].
Qed.

(** What any fetch event does to the world, whatever the method: the four
    cases of [fetch_effects], a request that is not a GET falling under the
    first. *)
Lemma fetch_effects_any
    (DYNAMIC_CACHE origin : string)
    (network : Request → option Response) (request : Request) (w : World) :
  let w' := snd (dispatch_fetch DYNAMIC_CACHE origin network request w) in
  w' = w ∨
  (w' = {| caches := caches w; trace := trace w ++ [NetFetch request] |} ∧
   (network request = None ∨ ∃ r, network request = Some r ∧ ok r = false)) ∨
  (∃ r, network request = Some r ∧ ok r = true ∧
        (http_scheme (url request) = false ∨ status r = 206) ∧
        w' = {| caches := storage_open (caches w) DYNAMIC_CACHE;
                trace := trace w ++ [NetFetch request] |}) ∨
  (∃ r, network request = Some r ∧ ok r = true ∧
        (http_scheme (url request) = true ∧ status r ≠ 206) ∧
        w' = {| caches := storage_put (storage_open (caches w) DYNAMIC_CACHE)
                            DYNAMIC_CACHE (url request) r;
                trace := trace w ++ [NetFetch request]
                           ++ [CachePut DYNAMIC_CACHE (url request) r] |}).
Proof.
  destruct (String.eqb_spec (method request) "GET") as [Hget|Hother].
  - by apply fetch_effects.
  - left. unfold dispatch_fetch, onFetch.
    apply String.eqb_neq in Hother. by rewrite Hother.
Qed.



Lemma browse_keeps_answers
    (DYNAMIC_CACHE origin : string)
    (visits : list ((Request → option Response) * Request)) (w : World)
    (key : string) :
  is_Some (storage_match (caches w) key) →
  is_Some (storage_match (caches (browse DYNAMIC_CACHE origin visits w)) key).
Proof.
  revert w. induction visits as [|[network request] rest IH]; intros w Hsome;
    simpl; [done|].
  apply IH.
  destruct (fetch_effects_any DYNAMIC_CACHE origin network request w)
    as [Hw | [[Hw _] | [(r & _ & _ & _ & Hw) | (r & _ & _ & _ & Hw)]]];
    simpl in Hw; rewrite Hw; simpl; try done.
  - by rewrite storage_match_open.
  - apply storage_match_put_is_Some. by rewrite storage_match_open.
Qed.

Lemma storage_get_filter (P : string * Cache → Prop)
    `{!∀ p, Decision (P p)} (cs : CacheStorage) (name : string) :
  (∀ c, P (name, c)) →
  storage_get (filter P cs) name = storage_get cs name.
Proof.
  intros HP. induction cs as [|[n c] rest IH]; [done|].
  rewrite filter_cons. simpl.
  destruct (String.eqb_spec n name) as [->|Hne].
  - rewrite decide_True by done. simpl. by rewrite String.eqb_refl.
  - destruct (decide (P (n, c))); simpl; [|done].
    apply String.eqb_neq in Hne. by rewrite Hne.
Qed.

Lemma install_stores_asset
    (STATIC_CACHE origin : string)
    (network : Request → option Response) (w : World) (path : string) :
  assets_reachable origin network = true →
  path ∈ STATIC_ASSETS →
  is_Some (network (new_Request origin path)) ∧
  partition_lookup (caches (snd (onInstall STATIC_CACHE origin network w)))
    STATIC_CACHE (resolve origin path)
  = network (new_Request origin path).
Proof.
  intros Hreach Hin.
  destruct (assets_reachable_elem origin network path Hreach Hin)
    as (r & Hnet & _).
  split; [by rewrite Hnet|].
  rewrite onInstall_run. cbv zeta. rewrite Hreach, Hnet. cbv [snd caches].
  apply partition_lookup_foldl_put.
  - apply storage_has_open.
  - intros [key r'] (path' & _ & Hnet' & Hkey)%elem_of_stored_by_addAll Hsame.
    simpl in *.
    assert (new_Request origin path' = new_Request origin path) as Heq.
    { unfold new_Request. f_equal. congruence. }
    congruence.
  - left. exists (resolve origin path, r). split; [|done].
    apply elem_of_stored_by_addAll. by exists path.
Qed.

(** A successful install is followed by the activation. *)
Lemma lifecycle_success
    (STATIC_CACHE DYNAMIC_CACHE origin : string)
    (network : Request → option Response) (w : World) :
  assets_reachable origin network = true →
  lifecycle STATIC_CACHE DYNAMIC_CACHE origin network 3 Installing w
  = (Active,
     snd (onActivate STATIC_CACHE DYNAMIC_CACHE
            (snd (onInstall STATIC_CACHE origin network w)))).
Proof.
  intros Hreach.
  change (lifecycle STATIC_CACHE DYNAMIC_CACHE origin network 3 Installing w)
    with (let (s', w') :=
            lifecycle_step STATIC_CACHE DYNAMIC_CACHE origin network
              Installing w in
          lifecycle STATIC_CACHE DYNAMIC_CACHE origin network 2 s' w').
  unfold lifecycle_step at 1. rewrite onInstall_run. cbv zeta.
  by rewrite Hreach.
Qed.

(** X3. Once the worker has been installed and activated, whatever was in
    the caches before, it answers every GET of the session that follows:
    the page gets a response (from the network, from a cache, or made up),
    never a network error, whatever the network does. *)
Theorem installed_worker_answers_every_get
    (STATIC_CACHE DYNAMIC_CACHE origin : string)
    (at_install network : Request → option Response) (w : World)
    (visits : list ((Request → option Response) * Request))
    (request : Request) :
  assets_reachable origin at_install = true →
  method request = "GET" →
  let active :=
    lifecycle STATIC_CACHE DYNAMIC_CACHE origin at_install 3 Installing w in
  fst active = Active ∧
  ∃ r, fst (dispatch_fetch DYNAMIC_CACHE origin network request
              (browse DYNAMIC_CACHE origin visits (snd active)))
       = Received r.
Proof.
  intros Hreach Hget. cbv zeta.
  destruct (install_stores_asset STATIC_CACHE origin at_install w
              "/index.html" Hreach) as [[home Hhome] Hstored].
  { unfold STATIC_ASSETS. set_solver. }
  rewrite Hhome in Hstored.
  rewrite lifecycle_success by done. cbv [fst snd].
  split; [done|].
  set (w3 := (onActivate STATIC_CACHE DYNAMIC_CACHE
                (onInstall STATIC_CACHE origin at_install w).2).2).
  assert (is_Some (storage_match (caches w3) (resolve origin "/index.html")))
    as Hcached.
  { assert (partition_lookup (caches w3) STATIC_CACHE
              (resolve origin "/index.html") = Some home) as Hkept.
    { unfold w3, partition_lookup. rewrite onActivate_run. simpl.
      match goal with
      | |- context [storage_get (filter ?P ?cs) STATIC_CACHE] =>
          replace (storage_get (filter P cs) STATIC_CACHE)
            with (storage_get cs STATIC_CACHE)
      end; [exact Hstored|].
      symmetry. apply storage_get_filter. intros c. by left. }
    destruct (partition_lookup_match _ _ _ _ Hkept) as [r' Hr']. by exists r'. }
  pose proof (browse_keeps_answers DYNAMIC_CACHE origin visits w3 _ Hcached)
    as [home' Hhome'].
  destruct (fetch_answered_unless_home_missing DYNAMIC_CACHE origin network
              request (browse DYNAMIC_CACHE origin visits w3) Hget)
    as [Hanswered | (_ & _ & _ & _ & Hmissing & _)]; [done|].
  congruence.
Qed.




(** X7. Whatever a cache that exists before DYNAMIC is first created holds
    for an identity keeps answering for it: a Page request stores the
    fresh OK response, when the cache accepts it, in DYNAMIC, which is
    created after the others, and the same request made with the network
    down gets the older entry. *)
Theorem older_cache_shadows_dynamic
    (DYNAMIC_CACHE origin : string)
    (up down : Request → option Response) (request : Request) (w : World)
    (older fresh : Response) :
  method request = "GET" →
  classify request = Page →
  storage_has (caches w) DYNAMIC_CACHE = false →
  storage_match (caches w) (url request) = Some older →
  up request = Some fresh →
  ok fresh = true →
  down request = None →
  let visited := snd (dispatch_fetch DYNAMIC_CACHE origin up request w) in
  storage_keys (caches visited) = storage_keys (caches w) ++ [DYNAMIC_CACHE] ∧
  partition_lookup (caches visited) DYNAMIC_CACHE (url request)
  = (if http_scheme (url request) && negb (status fresh =? 206)
     then Some fresh else None) ∧
  fst (dispatch_fetch DYNAMIC_CACHE origin down request visited)
  = Received older.
Proof.
  intros Hget Hpage Hnew Hold Hup Hok Hdown.
  assert (∀ net w0, dispatch_fetch DYNAMIC_CACHE origin net request w0
                    = respondWith
                        (handlePageRequest DYNAMIC_CACHE origin net request) w0)
    as Hrun.
  { intros net w0. unfold dispatch_fetch.
    by rewrite onFetch_get, Hpage by done. }
  cbv zeta. rewrite !Hrun. unfold respondWith.
  rewrite (network_first_run _ _ up), Hup, Hok. cbn [snd].
  rewrite network_first_run, Hdown.
  assert (accepts request fresh
          = http_scheme (url request) && negb (status fresh =? 206)) as <-.
  { unfold accepts. by rewrite Hget. }
  destruct (accepts request fresh); cbn [caches].
  - rewrite storage_keys_put, storage_keys_open, Hnew.
    rewrite (storage_match_put_shadowed _ _ _ _ older) by done.
    split; [done|]. split; [|done].
    apply partition_lookup_put, storage_has_open.
  - rewrite storage_keys_open, Hnew, partition_lookup_open,
      storage_match_open, Hold.
    split; [done|]. split; [|done].
    unfold partition_lookup. by rewrite storage_get_absent.
Qed.

Lemma elem_of_filter_current (STATIC_CACHE DYNAMIC_CACHE : string)
    (cs : CacheStorage) (name : string) (c : Cache) :
  (name, c) ∈ filter (λ p, p.1 = STATIC_CACHE ∨ p.1 = DYNAMIC_CACHE) cs ↔
  (name = STATIC_CACHE ∨ name = DYNAMIC_CACHE) ∧ (name, c) ∈ cs.
Proof. by rewrite list_elem_of_filter. Qed.

(** X8. After the activate step [caches.match] answers from the current
    partitions only: an answer is an entry of a cache named by one of the
    two current tokens, the entries of those caches read as before, and
    the caches of every other name are gone.  Activating again changes
    nothing more. *)
Theorem activate_leaves_current_entries
    (STATIC_CACHE DYNAMIC_CACHE : string) (w : World) :
  let w' := snd (onActivate STATIC_CACHE DYNAMIC_CACHE w) in
  (∀ key r,
     storage_match (caches w') key = Some r →
     ∃ name c, (name = STATIC_CACHE ∨ name = DYNAMIC_CACHE) ∧
               (name, c) ∈ caches w ∧ c !! key = Some r) ∧
  (∀ name key,
     partition_lookup (caches w') name key
     = if decide (name = STATIC_CACHE ∨ name = DYNAMIC_CACHE)
       then partition_lookup (caches w) name key
       else None) ∧
  caches (snd (onActivate STATIC_CACHE DYNAMIC_CACHE w')) = caches w'.
Proof.
  destruct w as [cs tr]. cbv zeta. rewrite !onActivate_run. simpl.
  split; [|split].
  - intros key r (name & c & Hin & Hc)%storage_match_elem.
    apply elem_of_filter_current in Hin as [Hcur Hin]. eauto.
  - intros name key. unfold partition_lookup. case_decide as Hcur.
    + replace (storage_get
                 (filter (λ p, p.1 = STATIC_CACHE ∨ p.1 = DYNAMIC_CACHE) cs)
                 name)
        with (storage_get cs name); [done|].
      symmetry. by apply storage_get_filter.
    + induction cs as [|[n c] rest IH]; [done|].
      rewrite filter_cons. simpl. case_decide as Hn; [|apply IH].
      simpl. destruct (String.eqb_spec n name) as [->|_]; [done|apply IH].
  - apply filter_all. intros [n c] [Hcur _]%list_elem_of_filter. done.
Qed.

Lemma browse_keys
    (DYNAMIC_CACHE origin : string)
    (visits : list ((Request → option Response) * Request)) (w : World)
    (name : string) :
  name ∈ storage_keys (caches (browse DYNAMIC_CACHE origin visits w)) →
  name ∈ storage_keys (caches w) ∨ name = DYNAMIC_CACHE.
Proof.
  revert w. induction visits as [|[network request] rest IH]; intros w;
    simpl; [by left|].
  intros [Hin | ->]%IH; [|by right].
  destruct (fetch_effects_any DYNAMIC_CACHE origin network request w)
    as [Hw | [[Hw _] | [(r & _ & _ & _ & Hw) | (r & _ & _ & _ & Hw)]]];
    simpl in Hw; rewrite Hw in Hin; simpl in Hin; try (by left).
  all: rewrite ?storage_keys_put, storage_keys_open in Hin.
  all: destruct (storage_has (caches w) DYNAMIC_CACHE); [by left|].
  all: apply elem_of_app in Hin as [?|Hnew%list_elem_of_singleton];
    [by left|by right].
Qed.

(** X9. Once the activate step has run, a session of fetch events never
    brings a third partition into being: every cache name is one of the two
    current tokens, however many requests are served. *)
Theorem partitions_stay_current
    (STATIC_CACHE DYNAMIC_CACHE origin : string)
    (visits : list ((Request → option Response) * Request)) (w : World)
    (name : string) :
  name ∈ storage_keys
           (caches (browse DYNAMIC_CACHE origin visits
                      (snd (onActivate STATIC_CACHE DYNAMIC_CACHE w)))) →
  name = STATIC_CACHE ∨ name = DYNAMIC_CACHE.
Proof.
  intros [Hin | ->]%browse_keys; [|by right].
  rewrite onActivate_run in Hin. cbv [snd caches] in Hin.
  unfold storage_keys in Hin.
  apply list_elem_of_fmap in Hin as ([n c] & -> & [Hcur _]%list_elem_of_filter).
  exact Hcur.
Qed.

(** * Properties of the typing animation *)

Section TypingFacts.

Import Typing.

Variable texts : list JsString.

Lemma steps_add (loop : bool) (n m : nat) (r : Run) :
  steps texts loop (n + m) r
  = let (r', armed) := steps texts loop n r in
    let (r'', later) := steps texts loop m r' in
    (r'', armed ++ later).
Proof.
  revert r. induction n as [|n IH]; intros r; simpl.
  - by destruct (steps texts loop m r).
  - destruct (step texts loop r) as [r1 armed]. rewrite IH.
    destruct (steps texts loop n r1) as [r2 armed2].
    destruct (steps texts loop m r2) as [r3 armed3].
    by destruct armed.
Qed.

(** Typing, short of the last character. *)
Lemma typing_steps (loop : bool) (text : JsString) (i : nat) (k : nat)
    (c : Z) (shown : JsString) :
  texts !! i = Some text →
  0 ≤ c →
  c + Z.of_nat (S k) < Z.of_nat (List.length text) →
  steps texts loop (S k)
    (Due {| currentTextIndex := i; currentCharIndex := c;
            isDeleting := false; textContent := shown |})
  = (Due {| currentTextIndex := i; currentCharIndex := c + Z.of_nat (S k);
            isDeleting := false;
            textContent := substring0 text (c + Z.of_nat (S k)) |},
     replicate (S k) TypeSpeed).
Proof.
  intros Htext. revert c shown.
  induction k as [|k IH]; intros c shown Hc Hlt.
  - simpl. unfold type. simpl. rewrite Htext.
    destruct (Z.eqb_spec (c + 1) (Z.of_nat (List.length text))); [lia|done].
  - change (steps texts loop (S (S k)) ?r)
      with (let (r', armed) := step texts loop r in
            let (r'', later) := steps texts loop (S k) r' in
            (r'', match armed with Some t => t :: later | None => later end)).
    unfold step, type. cbn [currentTextIndex isDeleting currentCharIndex].
    rewrite Htext.
    destruct (Z.eqb_spec (c + 1) (Z.of_nat (List.length text))); [lia|].
    rewrite IH by lia.
    replace (c + 1 + Z.of_nat (S k)) with (c + Z.of_nat (S (S k))) by lia.
    done.
Qed.

(** Deleting, short of the last character. *)
Lemma deleting_steps (loop : bool) (text : JsString) (i : nat) (k : nat)
    (c : Z) (shown : JsString) :
  texts !! i = Some text →
  Z.of_nat (S k) < c →
  steps texts loop (S k)
    (Due {| currentTextIndex := i; currentCharIndex := c;
            isDeleting := true; textContent := shown |})
  = (Due {| currentTextIndex := i; currentCharIndex := c - Z.of_nat (S k);
            isDeleting := true;
            textContent := substring0 text (c - Z.of_nat (S k)) |},
     replicate (S k) DeleteSpeed).
Proof.
  intros Htext. revert c shown.
  induction k as [|k IH]; intros c shown Hlt.
  - simpl. unfold type. simpl. rewrite Htext.
    destruct (Z.eqb_spec (c - 1) 0); [lia|done].
  - change (steps texts loop (S (S k)) ?r)
      with (let (r', armed) := step texts loop r in
            let (r'', later) := steps texts loop (S k) r' in
            (r'', match armed with Some t => t :: later | None => later end)).
    unfold step, type. cbn [currentTextIndex isDeleting currentCharIndex].
    rewrite Htext.
    destruct (Z.eqb_spec (c - 1) 0); [lia|].
    rewrite IH by lia.
    replace (c - 1 - Z.of_nat (S k)) with (c - Z.of_nat (S (S k))) by lia.
    done.
Qed.

Lemma type_whole (loop : bool) (text : JsString) (i : nat) (shown : JsString) :
  texts !! i = Some text →
  text ≠ [] →
  steps texts loop (List.length text)
    (Due {| currentTextIndex := i; currentCharIndex := 0;
            isDeleting := false; textContent := shown |})
  = (if loop
     then Due {| currentTextIndex := i;
                 currentCharIndex := Z.of_nat (List.length text);
                 isDeleting := true; textContent := text |}
     else Stopped {| currentTextIndex := i;
                     currentCharIndex := Z.of_nat (List.length text);
                     isDeleting := false; textContent := text |},
     replicate (List.length text - 1) TypeSpeed
       ++ (if loop then [PauseTime] else [])).
Proof.
  intros Htext Hne.
  assert (∀ c shown',
            c + 1 = Z.of_nat (List.length text) →
            steps texts loop 1
              (Due {| currentTextIndex := i; currentCharIndex := c;
                      isDeleting := false; textContent := shown' |})
            = (if loop
               then Due {| currentTextIndex := i;
                           currentCharIndex := Z.of_nat (List.length text);
                           isDeleting := true; textContent := text |}
               else Stopped {| currentTextIndex := i;
                               currentCharIndex := Z.of_nat (List.length text);
                               isDeleting := false; textContent := text |},
               if loop then [PauseTime] else [])) as Hlast.
  { intros c shown' Hc. simpl. unfold type. simpl. rewrite Htext.
    rewrite Hc, Z.eqb_refl. unfold substring0.
    rewrite Nat2Z.id, firstn_all. by destruct loop. }
  destruct text as [|u [|u' rest]]; [done| |].
  - simpl List.length. rewrite Hlast by done. by destruct loop.
  - set (text := u :: u' :: rest) in *.
    replace (List.length text) with (S (List.length rest) + 1)%nat
      by (unfold text; simpl; lia).
    rewrite steps_add, typing_steps with (text := text);
      [|done|lia|unfold text; simpl List.length; lia].
    rewrite Hlast by (unfold text; simpl List.length; lia).
    replace (S (List.length rest) + 1 - 1)%nat with (S (List.length rest))
      by lia.
    replace (Z.of_nat (S (List.length rest) + 1))
      with (Z.of_nat (List.length text))
      by (unfold text; simpl List.length; lia).
    by destruct loop.
Qed.

Lemma delete_whole (loop : bool) (text : JsString) (i : nat) (shown : JsString) :
  texts !! i = Some text →
  text ≠ [] →
  steps texts loop (List.length text)
    (Due {| currentTextIndex := i;
            currentCharIndex := Z.of_nat (List.length text);
            isDeleting := true; textContent := shown |})
  = (Due {| currentTextIndex := (i + 1) mod List.length texts;
            currentCharIndex := 0;
            isDeleting := false; textContent := [] |},
     replicate (List.length text - 1) DeleteSpeed ++ [HalfPauseTime]).
Proof.
  intros Htext Hne.
  assert (∀ shown',
            steps texts loop 1
              (Due {| currentTextIndex := i; currentCharIndex := 1;
                      isDeleting := true; textContent := shown' |})
            = (Due {| currentTextIndex := (i + 1) mod List.length texts;
                      currentCharIndex := 0;
                      isDeleting := false; textContent := [] |},
               [HalfPauseTime])) as Hlast.
  { intros shown'. simpl. unfold type. simpl. by rewrite Htext. }
  destruct text as [|u [|u' rest]]; [done| |].
  - simpl List.length. by rewrite Hlast.
  - set (text := u :: u' :: rest) in *.
    replace (List.length text) with (S (List.length rest) + 1)%nat
      by (unfold text; simpl; lia).
    rewrite steps_add, deleting_steps with (text := text); [|done|lia].
    replace (Z.of_nat (S (List.length rest) + 1) - Z.of_nat (S (List.length rest)))
      with 1 by lia.
    rewrite Hlast.
    by replace (S (List.length rest) + 1 - 1)%nat with (S (List.length rest))
      by lia.
Qed.

Lemma type_then_delete (text : JsString) (i : nat) (shown : JsString) :
  texts !! i = Some text →
  text ≠ [] →
  steps texts true (List.length text + List.length text)
    (Due {| currentTextIndex := i; currentCharIndex := 0;
            isDeleting := false; textContent := shown |})
  = (Due {| currentTextIndex := (i + 1) mod List.length texts;
            currentCharIndex := 0;
            isDeleting := false; textContent := [] |},
     (replicate (List.length text - 1) TypeSpeed ++ [PauseTime])
       ++ replicate (List.length text - 1) DeleteSpeed ++ [HalfPauseTime]).
Proof.
  intros Htext Hne.
  rewrite steps_add, (type_whole true text i shown Htext Hne).
  by rewrite delete_whole.
Qed.

(** X11. One text, with [loop] on. From the start of a text that is not
    empty, as many calls as the text has characters type it out in full,
    arming [typeSpeed] timers and then the pause; as many calls again
    delete it, arming [deleteSpeed] timers and then half the pause, and
    leave the animation at the start of the next text, the first one after
    the last, with nothing shown. *)
Theorem typing_cycle (text : JsString) (i : nat) (shown : JsString) :
  texts !! i = Some text →
  text ≠ [] →
  let begin := Due {| currentTextIndex := i; currentCharIndex := 0;
                      isDeleting := false; textContent := shown |} in
  let n := List.length text in
  steps texts true n begin
  = (Due {| currentTextIndex := i; currentCharIndex := Z.of_nat n;
            isDeleting := true; textContent := text |},
     replicate (n - 1) TypeSpeed ++ [PauseTime]) ∧
  steps texts true (n + n) begin
  = (Due {| currentTextIndex := (i + 1) mod List.length texts;
            currentCharIndex := 0;
            isDeleting := false; textContent := [] |},
     (replicate (n - 1) TypeSpeed ++ [PauseTime])
       ++ replicate (n - 1) DeleteSpeed ++ [HalfPauseTime]).
Proof.
  intros Htext Hne. cbv zeta. split.
  - exact (type_whole true text i shown Htext Hne).
  - by apply type_then_delete.
Qed.

(** X12. With [loop] off the animation types the first text out once and
    stops: no timer is armed after the last character, the text stays
    shown, and nothing is ever deleted. *)
Theorem typing_without_loop_stops (text : JsString) (shown : JsString)
    (later : nat) :
  texts !! 0%nat = Some text →
  text ≠ [] →
  steps texts false (List.length text + later) (Due (start shown))
  = (Stopped {| currentTextIndex := 0;
                currentCharIndex := Z.of_nat (List.length text);
                isDeleting := false; textContent := text |},
     replicate (List.length text - 1) TypeSpeed).
Proof.
  intros Htext Hne. unfold start.
  rewrite steps_add, (type_whole false text 0 shown Htext Hne).
  rewrite app_nil_r.
  assert (∀ a, steps texts false later (Stopped a) = (Stopped a, [])) as ->.
  { intros a. induction later as [|m IH]; [done|]. simpl.
    by rewrite IH. }
  by rewrite app_nil_r.
Qed.

(** X13. An empty text stalls the animation: the character index is past
    the length of the text after the first call and never equal to it, so
    every call shows nothing, arms the [typeSpeed] timer again, and the
    next text is never reached. *)
Theorem empty_text_stalls (loop : bool) (i : nat) (shown : JsString) (k : nat) :
  texts !! i = Some ([] : JsString) →
  steps texts loop (S k)
    (Due {| currentTextIndex := i; currentCharIndex := 0;
            isDeleting := false; textContent := shown |})
  = (Due {| currentTextIndex := i; currentCharIndex := Z.of_nat (S k);
            isDeleting := false; textContent := [] |},
     replicate (S k) TypeSpeed).
Proof.
  intros Htext.
  assert (∀ c shown',
            0 ≤ c →
            step texts loop
              (Due {| currentTextIndex := i; currentCharIndex := c;
                      isDeleting := false; textContent := shown' |})
            = (Due {| currentTextIndex := i; currentCharIndex := c + 1;
                      isDeleting := false; textContent := [] |},
               Some TypeSpeed)) as Hstep.
  { intros c shown' Hc. unfold step, type.
    cbn [currentTextIndex isDeleting currentCharIndex]. rewrite Htext.
    simpl List.length.
    destruct (Z.eqb_spec (c + 1) (Z.of_nat 0)); [lia|].
    unfold substring0. by rewrite take_nil. }
  assert (∀ n c shown',
            0 ≤ c →
            steps texts loop (S n)
              (Due {| currentTextIndex := i; currentCharIndex := c;
                      isDeleting := false; textContent := shown' |})
            = (Due {| currentTextIndex := i;
                      currentCharIndex := c + Z.of_nat (S n);
                      isDeleting := false; textContent := [] |},
               replicate (S n) TypeSpeed)) as Hsteps.
  { induction n as [|n IH]; intros c shown' Hc.
    - cbn [steps]. rewrite Hstep by done.
      by replace (c + Z.of_nat 1) with (c + 1) by lia.
    - change (steps texts loop (S (S n)) ?r)
        with (let (r', armed) := step texts loop r in
              let (r'', later) := steps texts loop (S n) r' in
              (r'', match armed with Some t => t :: later | None => later end)).
      rewrite Hstep by done. rewrite IH by lia.
      by replace (c + 1 + Z.of_nat (S n)) with (c + Z.of_nat (S (S n))) by lia. }
  by rewrite Hsteps.
Qed.

Lemma fst_steps_add (loop : bool) (n m : nat) (r : Run) :
  fst (steps texts loop (n + m) r)
  = fst (steps texts loop m (fst (steps texts loop n r))).
Proof.
  rewrite steps_add. destruct (steps texts loop n r) as [r' armed]. simpl.
  by destruct (steps texts loop m r').
Qed.

Lemma fst_steps_1 (loop : bool) (r : Run) :
  fst (steps texts loop 1 r) = fst (step texts loop r).
Proof. cbn [steps]. by destruct (step texts loop r). Qed.

(** A run that has not thrown, whose text index is inside the list and
    whose shown text is a prefix of the current text. *)
Definition sound (r : Run) : Prop :=
  match r with
  | Due a | Stopped a =>
      ∃ text, texts !! currentTextIndex a = Some text ∧
              textContent a `prefix_of` text
  | Thrown => False
  end.

Lemma type_sound (loop : bool) (a : Animation) :
  (currentTextIndex a < List.length texts)%nat →
  sound (fst (step texts loop (Due a))).
Proof.
  intros Hin.
  destruct (lookup_lt_is_Some_2 texts _ Hin) as [text Htext].
  assert (∀ k, substring0 text k `prefix_of` text) as Hprefix.
  { intros k. exists (drop (Z.to_nat k) text). unfold substring0.
    by rewrite take_drop. }
  assert (List.length texts ≠ 0)%nat as Hlen by lia.
  destruct (lookup_lt_is_Some_2 texts
              ((currentTextIndex a + 1) mod List.length texts))
    as [next Hnext]; [by apply Nat.mod_upper_bound|].
  unfold step, type. rewrite Htext.
  destruct (isDeleting a).
  - destruct (Z.eqb_spec (currentCharIndex a - 1) 0) as [Hzero|_]; simpl.
    + exists next. split; [done|]. rewrite Hzero. apply prefix_nil.
    + by exists text.
  - destruct (currentCharIndex a + 1 =? Z.of_nat (List.length text));
      [destruct loop|]; simpl; by exists text.
Qed.

Lemma step_sound (loop : bool) (r : Run) :
  sound r → sound (fst (step texts loop r)).
Proof.
  destruct r as [a|a|]; [|done|done].
  intros (text & Htext & _). apply type_sound.
  by eapply lookup_lt_Some.
Qed.

(** X14. With at least one text in the list the animation never throws:
    after any number of calls of [type()] the text index is inside the
    list and what the element shows is a prefix of the current text. *)
Theorem typing_stays_sound (loop : bool) (shown : JsString) (n : nat) :
  texts ≠ [] →
  init texts (Some shown) = Some (Due (start shown)) ∧
  sound (fst (steps texts loop (S n) (Due (start shown)))).
Proof.
  intros Hne.
  assert (0 < List.length texts)%nat as Hlen.
  { destruct texts; [done|simpl; lia]. }
  split.
  { unfold init. destruct (Nat.eqb_spec (List.length texts) 0); [lia|done]. }
  assert (∀ m r, sound r → sound (fst (steps texts loop m r))) as Hkeep.
  { induction m as [|m IH]; intros r Hr; [done|].
    change (S m) with (1 + m)%nat. rewrite fst_steps_add.
    apply IH. rewrite fst_steps_1. by apply step_sound. }
  change (S n) with (1 + n)%nat. rewrite fst_steps_add.
  apply Hkeep. rewrite fst_steps_1. by apply type_sound.
Qed.

Lemma period_suffix (pre suf : list JsString) (shown : JsString) :
  texts = pre ++ suf →
  suf ≠ [] →
  Forall (λ text, text ≠ []) suf →
  fst (steps texts true (2 * sum_list (List.length <$> suf))
         (Due {| currentTextIndex := List.length pre; currentCharIndex := 0;
                 isDeleting := false; textContent := shown |}))
  = Due {| currentTextIndex := 0; currentCharIndex := 0;
           isDeleting := false; textContent := [] |}.
Proof.
  revert pre shown. induction suf as [|text rest IH]; [done|].
  intros pre shown Htexts _ [Hne Hrest]%Forall_cons.
  assert (texts !! List.length pre = Some text) as Htext.
  { rewrite Htexts. by apply list_lookup_middle. }
  rewrite fmap_cons. simpl sum_list.
  replace (2 * (List.length text + sum_list (List.length <$> rest)))%nat
    with ((List.length text + List.length text)
          + 2 * sum_list (List.length <$> rest))%nat by lia.
  rewrite fst_steps_add.
  rewrite (type_then_delete text (List.length pre) shown Htext Hne).
  cbv [fst].
  destruct rest as [|text' rest'].
  - simpl. do 2 f_equal. rewrite Htexts, length_app. simpl.
    apply Nat.Div0.mod_same.
  - replace ((List.length pre + 1) mod List.length texts)%nat
      with (List.length (pre ++ [text])).
    + apply IH; [|done|done]. by rewrite Htexts, <- app_assoc.
    + rewrite length_app. simpl. symmetry. apply Nat.mod_small.
      rewrite Htexts, length_app. simpl. lia.
Qed.

(** X15. With [loop] on and no empty text in the list the animation is
    periodic: after twice as many calls as the texts have characters in
    all, every text has been typed and deleted in turn and the animation is
    back at the start of the first text, with nothing shown. *)
Theorem typing_period (shown : JsString) :
  texts ≠ [] →
  Forall (λ text, text ≠ []) texts →
  fst (steps texts true (2 * sum_list (List.length <$> texts))
         (Due (start shown)))
  = Due (start []).
Proof.
  intros Hne Hall. by apply (period_suffix [] texts).
Qed.

End TypingFacts.

(** * Properties of the form validation *)

Section FormFacts.

Import Form.

Lemma nullable_matches (r : regex) : nullable r = true ↔ Matches r [].
Proof.
  induction r as [| |p|r1 IH1 r2 IH2|r1 IH1 r2 IH2|r IH]; simpl.
  - split; [done|]. inversion 1.
  - split; [constructor|done].
  - split; [done|]. inversion 1.
  - rewrite andb_true_iff, IH1, IH2. split.
    + intros [H1 H2]. apply (MCat _ _ [] [] H1 H2).
    + inversion 1 as [| |? ? s1 s2 H1 H2 Heq1 Heq2| | | |]; subst.
      destruct s1, s2; try discriminate. done.
  - rewrite orb_true_iff, IH1, IH2. split.
    + intros [?|?]; [by apply MAltL|by apply MAltR].
    + inversion 1; subst; auto.
  - split; [constructor|done].
Qed.

(** A match of [r*] on a string that is not empty starts with a match of
    [r] that is not empty. *)
Lemma matches_star_cons (r : regex) (c : N) (s : JsString) :
  Matches (Star r) (c :: s) →
  ∃ s1 s2, s = s1 ++ s2 ∧ Matches r (c :: s1) ∧ Matches (Star r) s2.
Proof.
  intros H. remember (Star r) as r' eqn:Hr. remember (c :: s) as s' eqn:Hs.
  revert s Hs.
  induction H as [| | | | | |r0 s1 s2 H1 _ H2 IH2]; try discriminate.
  injection Hr as ->. intros s Hs.
  destruct s1 as [|c1 s1]; simpl in Hs.
  - by apply IH2.
  - injection Hs as -> <-. by exists s1, s2.
Qed.

Lemma deriv_matches (r : regex) (c : N) (s : JsString) :
  Matches (deriv c r) s ↔ Matches r (c :: s).
Proof.
  revert s.
  induction r as [| |p|r1 IH1 r2 IH2|r1 IH1 r2 IH2|r IH]; intros s; simpl.
  - split; inversion 1.
  - split; inversion 1.
  - destruct (p c) eqn:Hp.
    + split.
      * inversion 1; subst. by constructor.
      * inversion 1; subst. constructor.
    + split; [inversion 1|]. inversion 1; subst. congruence.
  - assert (Matches (Cat (deriv c r1) r2) s ↔
            ∃ s1 s2, s = s1 ++ s2 ∧ Matches r1 (c :: s1) ∧ Matches r2 s2)
      as Hleft.
    { split.
      - inversion 1 as [| |? ? s1 s2 H1 H2| | | |]; subst.
        exists s1, s2. by rewrite <- IH1.
      - intros (s1 & s2 & -> & H1 & H2). constructor; [by apply IH1|done]. }
    assert (Matches (Cat r1 r2) (c :: s) ↔
            (∃ s1 s2, s = s1 ++ s2 ∧ Matches r1 (c :: s1) ∧ Matches r2 s2) ∨
            (Matches r1 [] ∧ Matches r2 (c :: s))) as Hcat.
    { split.
      - inversion 1 as [| |? ? s1 s2 H1 H2 Heq1 Heq2| | | |]; subst.
        destruct s1 as [|c1 s1]; simpl in Heq2.
        + right. by subst.
        + injection Heq2 as -> <-. left. by exists s1, s2.
      - intros [(s1 & s2 & -> & H1 & H2)|[H1 H2]].
        + apply (MCat _ _ (c :: s1) s2 H1 H2).
        + apply (MCat _ _ [] (c :: s) H1 H2). }
    rewrite Hcat. destruct (nullable r1) eqn:Hnull.
    + apply nullable_matches in Hnull. split.
      * inversion 1; subst; [left; by apply Hleft|right].
        split; [done|by apply IH2].
      * intros [H|[_ H]]; [apply MAltL; by apply Hleft|].
        apply MAltR. by apply IH2.
    + rewrite Hleft. split; [by left|]. intros [H|[H _]]; [done|].
      apply nullable_matches in H. congruence.
  - split.
    + inversion 1; subst; [apply MAltL; by apply IH1|apply MAltR; by apply IH2].
    + inversion 1; subst; [apply MAltL; by apply IH1|apply MAltR; by apply IH2].
  - split.
    + inversion 1 as [| |? ? s1 s2 H1 H2| | | |]; subst.
      apply (MStarApp r (c :: s1) s2); [by apply IH|done].
    + intros (s1 & s2 & -> & H1 & H2)%matches_star_cons.
      constructor; [by apply IH|done].
Qed.

(** [test] decides [Matches]. *)
Lemma test_matches (r : regex) (s : JsString) :
  test r s = true ↔ Matches r s.
Proof.
  revert r. induction s as [|c s IH]; intros r; simpl.
  - apply nullable_matches.
  - rewrite IH. apply deriv_matches.
Qed.

Lemma matches_class (p : N → bool) (s : JsString) :
  Matches (Class p) s ↔ ∃ c, s = [c] ∧ p c = true.
Proof.
  split.
  - inversion 1; subst. eauto.
  - intros (c & -> & Hp). by constructor.
Qed.

Lemma matches_cat (r1 r2 : regex) (s : JsString) :
  Matches (Cat r1 r2) s ↔
  ∃ s1 s2, s = s1 ++ s2 ∧ Matches r1 s1 ∧ Matches r2 s2.
Proof.
  split.
  - inversion 1; subst. eauto.
  - intros (s1 & s2 & -> & H1 & H2). by constructor.
Qed.

Lemma matches_star_class (p : N → bool) (s : JsString) :
  Matches (Star (Class p)) s ↔ Forall (λ c, p c = true) s.
Proof.
  split.
  - induction s as [|c s IH]; [constructor|].
    intros (s1 & s2 & -> & H1 & H2)%matches_star_cons.
    apply matches_class in H1 as (c' & Heq & Hp).
    injection Heq as -> ->. constructor; [done|by apply IH].
  - induction 1 as [|c s Hp _ IH]; [constructor|].
    apply (MStarApp _ [c] s); [by constructor|done].
Qed.

(** [[class]+] matches the strings that are not empty and are made of
    code units of the class. *)
Lemma matches_plus_class (p : N → bool) (s : JsString) :
  Matches (Plus (Class p)) s ↔ s ≠ [] ∧ Forall (λ c, p c = true) s.
Proof.
  unfold Plus. rewrite matches_cat. split.
  - intros (s1 & s2 & -> & (c & -> & Hp)%matches_class & H2%matches_star_class).
    split; [done|]. by constructor.
  - intros [Hne Hall]. destruct s as [|c s]; [done|].
    apply Forall_cons in Hall as [Hp Hall].
    exists [c], s. split; [done|]. split.
    + by constructor.
    + by apply matches_star_class.
Qed.

(** ** Trimming *)

Lemma trimStart_head (s : JsString) :
  trimStart s = [] ∨
  ∃ c rest, trimStart s = c :: rest ∧ isWhiteSpace c = false.
Proof.
  induction s as [|c s IH]; simpl; [by left|].
  destruct (isWhiteSpace c) eqn:Hc; [done|]. right. eauto.
Qed.

Lemma trimStart_nil (s : JsString) :
  trimStart s = [] ↔ Forall (λ c, isWhiteSpace c = true) s.
Proof.
  induction s as [|c s IH]; simpl.
  - split; [constructor|done].
  - destruct (isWhiteSpace c) eqn:Hc.
    + rewrite IH. split; [by constructor|]. by intros [_ ?]%Forall_cons.
    + split; [done|]. intros [? _]%Forall_cons. congruence.
Qed.

Lemma trimStart_keeps (c : N) (s : JsString) :
  isWhiteSpace c = false → trimStart (c :: s) = c :: s.
Proof. simpl. by intros ->. Qed.

Lemma trimStart_snoc (s : JsString) (c : N) :
  isWhiteSpace c = false → trimStart (s ++ [c]) = trimStart s ++ [c].
Proof.
  intros Hc. induction s as [|c' s IH]; simpl; [by rewrite Hc|].
  by destruct (isWhiteSpace c').
Qed.

(** [trim] leaves nothing exactly when the string is white space only. *)
Lemma trim_nil (s : JsString) :
  trim s = [] ↔ Forall (λ c, isWhiteSpace c = true) s.
Proof.
  unfold trim, trimEnd. rewrite <- trimStart_nil.
  destruct (trimStart_head s) as [->|(c & rest & -> & Hc)]; [done|].
  split; [|done]. intros Hnil.
  apply (f_equal reverse) in Hnil. rewrite reverse_involutive in Hnil.
  rewrite reverse_cons, trimStart_snoc in Hnil by done.
  simpl in Hnil. by destruct (trimStart (reverse rest)).
Qed.

Lemma trim_idempotent (s : JsString) : trim (trim s) = trim s.
Proof.
  unfold trim, trimEnd.
  destruct (trimStart_head s) as [->|(c & rest & -> & Hc)]; [done|].
  rewrite reverse_cons, trimStart_snoc by done.
  rewrite reverse_app, reverse_singleton. cbn [app].
  rewrite trimStart_keeps by done.
  rewrite reverse_cons, reverse_involutive, trimStart_snoc by done.
  destruct (trimStart_head (reverse rest)) as [->|(c' & rest' & Heq & Hc')].
  - reflexivity.
  - rewrite Heq, trimStart_keeps by done.
    by rewrite reverse_app, reverse_singleton.
Qed.

(** ** validateField *)

Lemma blank_length (s : JsString) : (List.length s =? 0)%nat = true ↔ s = [].
Proof. rewrite Nat.eqb_eq. by destruct s. Qed.

Lemma notSpaceNorAt_spec (c : N) :
  notSpaceNorAt c = true ↔ isWhiteSpace c = false ∧ c ≠ 64%N.
Proof.
  unfold notSpaceNorAt.
  rewrite negb_true_iff, orb_false_iff, N.eqb_neq. done.
Qed.

(** The strings the e-mail expression matches: local part, at sign, domain,
    dot, ending, the three parts not empty and free of white space and at
    signs. *)
Lemma matches_email (s : JsString) :
  Matches emailRegex s ↔
  ∃ localPart domain ending,
    s = localPart ++ [64%N] ++ domain ++ [46%N] ++ ending ∧
    localPart ≠ [] ∧ domain ≠ [] ∧ ending ≠ [] ∧
    Forall (λ c, isWhiteSpace c = false ∧ c ≠ 64%N)
      (localPart ++ domain ++ ending).
Proof.
  unfold emailRegex.
  assert (∀ l, Forall (λ c, notSpaceNorAt c = true) l ↔
               Forall (λ c, isWhiteSpace c = false ∧ c ≠ 64%N) l) as Hok.
  { intros l. apply Forall_iff. intros c. apply notSpaceNorAt_spec. }
  split.
  - intros (a & s1 & -> & [Ha Hall_a]%matches_plus_class & H1)%matches_cat.
    apply matches_cat in H1
      as (at_ & s2 & -> & (c1 & -> & Hat%N.eqb_eq)%matches_class & H2).
    subst c1.
    apply matches_cat in H2
      as (b & s3 & -> & [Hb Hall_b]%matches_plus_class & H3).
    apply matches_cat in H3
      as (dot & c & -> & (c2 & -> & Hdot%N.eqb_eq)%matches_class
          & [Hc Hall_c]%matches_plus_class).
    subst c2.
    exists a, b, c. repeat split; try done.
    rewrite !Forall_app. repeat split; by apply Hok.
  - intros (a & b & c & -> & Ha & Hb & Hc & Hall).
    rewrite !Forall_app in Hall.
    destruct Hall as (Hall_a%Hok & Hall_b%Hok & Hall_c%Hok).
    apply matches_cat. exists a, ([64%N] ++ b ++ [46%N] ++ c).
    split; [done|]. split; [by apply matches_plus_class|].
    apply matches_cat. exists [64%N], (b ++ [46%N] ++ c).
    split; [done|]. split; [by apply matches_class; exists 64%N|].
    apply matches_cat. exists b, ([46%N] ++ c).
    split; [done|]. split; [by apply matches_plus_class|].
    apply matches_cat. exists [46%N], c.
    split; [done|]. split; [by apply matches_class; exists 46%N|].
    by apply matches_plus_class.
Qed.

(** X16. A field whose value is empty or white space only is treated as
    not filled in: a required one is rejected with the message that the
    field is required, whatever its type and name, and one that is not
    required is accepted without any other check. *)
Theorem blank_field_rule (field : Field) (d : Display) :
  Forall (λ c, isWhiteSpace c = true) (value field) →
  validateField field d
  = if required field
    then (false, {| errorClass := true; validClass := false;
                    errorElement := Some ("This field is required"%string, true) |})
    else (true, {| errorClass := false; validClass := true;
                   errorElement := Some (EmptyString, false) |}).
Proof.
  intros Hblank%trim_nil. unfold validateField, verdict. rewrite Hblank.
  simpl. destruct (required field); simpl; [done|].
  by rewrite !andb_false_r.
Qed.

(** X17. A field of type [email] that is filled in is accepted exactly
    when its trimmed value reads local part, at sign, domain, dot, ending,
    with the three parts not empty and free of white space and of at
    signs; no other rule applies to it, whatever its name, and a rejected
    one shows the message asking for a valid address. *)
Theorem email_rule (field : Field) (d : Display) :
  type field = "email"%string →
  trim (value field) ≠ [] →
  (fst (validateField field d) = true ↔
   ∃ localPart domain ending,
     trim (value field) = localPart ++ [64%N] ++ domain ++ [46%N] ++ ending ∧
     localPart ≠ [] ∧ domain ≠ [] ∧ ending ≠ [] ∧
     Forall (λ c, isWhiteSpace c = false ∧ c ≠ 64%N)
       (localPart ++ domain ++ ending)) ∧
  (fst (validateField field d) = false →
   snd (validateField field d)
   = {| errorClass := true; validClass := false;
        errorElement :=
          Some ("Please enter a valid email address"%string, true) |}).
Proof.
  intros Htype Hfilled. rewrite <- matches_email, <- test_matches.
  unfold validateField, verdict. rewrite Htype.
  assert ((List.length (trim (value field)) =? 0)%nat = false) as ->.
  { apply not_true_iff_false. by rewrite blank_length. }
  rewrite andb_false_r. simpl.
  by destruct (test emailRegex (trim (value field))).
Qed.

(** X18. A field called [name] that is not of type [email] and is filled
    in is accepted exactly when every code unit of its trimmed value is an
    ASCII letter or white space. *)
Theorem name_rule (field : Field) (d : Display) :
  type field ≠ "email"%string →
  name field = "name"%string →
  trim (value field) ≠ [] →
  (fst (validateField field d) = true ↔
   Forall (λ c, (97 ≤ c ≤ 122 ∨ 65 ≤ c ≤ 90)%N ∨ isWhiteSpace c = true)
     (trim (value field))) ∧
  (fst (validateField field d) = false →
   snd (validateField field d)
   = {| errorClass := true; validClass := false;
        errorElement :=
          Some ("Name should only contain letters and spaces"%string, true) |}).
Proof.
  intros Htype%String.eqb_neq Hname Hfilled.
  assert (Forall (λ c, (97 ≤ c ≤ 122 ∨ 65 ≤ c ≤ 90)%N ∨ isWhiteSpace c = true)
            (trim (value field))
          ↔ test nameRegex (trim (value field)) = true) as ->.
  { rewrite test_matches. unfold nameRegex. rewrite matches_plus_class.
    split; [intros Hall; split; [done|]|intros [_ Hall]];
      (eapply Forall_impl; [exact Hall|]); intros c; unfold letterOrSpace;
      rewrite !orb_true_iff, !andb_true_iff, !N.leb_le; tauto. }
  unfold validateField, verdict. rewrite Htype, Hname.
  assert ((List.length (trim (value field)) =? 0)%nat = false) as ->.
  { apply not_true_iff_false. by rewrite blank_length. }
  rewrite andb_false_r. simpl.
  by destruct (test nameRegex (trim (value field))).
Qed.

(** X19. A field called [message] that is not of type [email] and is
    filled in is accepted exactly when its trimmed value has at least ten
    code units. *)
Theorem message_rule (field : Field) (d : Display) :
  type field ≠ "email"%string →
  name field = "message"%string →
  trim (value field) ≠ [] →
  (fst (validateField field d) = true ↔
   (10 ≤ List.length (trim (value field)))%nat) ∧
  (fst (validateField field d) = false →
   snd (validateField field d)
   = {| errorClass := true; validClass := false;
        errorElement :=
          Some ("Message should be at least 10 characters long"%string, true) |}).
Proof.
  intros Htype%String.eqb_neq Hname Hfilled.
  unfold validateField, verdict. rewrite Htype, Hname.
  assert ((List.length (trim (value field)) =? 0)%nat = false) as ->.
  { apply not_true_iff_false. by rewrite blank_length. }
  rewrite andb_false_r. simpl.
  destruct (Nat.ltb_spec (List.length (trim (value field))) 10); simpl.
  - split; [|done]. split; [done|lia].
  - split; [|done]. split; [done|done].
Qed.

(** X20. White space around a value does not count: validating a field
    and validating it with its value trimmed give the same verdict and the
    same display. *)
Theorem validation_ignores_surrounding_space (field : Field) (d : Display) :
  validateField
    {| value := trim (value field); type := type field;
       name := name field; required := required field |} d
  = validateField field d.
Proof. unfold validateField, verdict. simpl. by rewrite trim_idempotent. Qed.

(** ** validateForm *)


(** What a validation writes does not depend on what was shown before. *)
Lemma validateField_display (f : Field) (d d' : Display) :
  validateField f d = validateField f d'.
Proof. reflexivity. Qed.





(** Two required fields under one parent, the first blank and the second
    well formed: the form is held back and the first field is marked as in
    error, but the error element the two share was cleared by the
    validation of the second and shows nothing. *)
Example shared_error_element_overwritten :
  handleSubmit [Sample.nameInput; Sample.emailInput; Sample.optionalInput] ∅
  = (false,
     ([{| field := Sample.blankName; parentNode := 0;
          classError := true; classValid := false |};
       {| field := Sample.email; parentNode := 0;
          classError := false; classValid := true |};
       Sample.optionalInput],
      {[ 0%nat := (EmptyString, false) ]})).
Proof. vm_compute. reflexivity. Qed.

(** X22. Only required fields can hold a form back: a form none of whose
    fields is required is sent whatever the fields hold, a malformed
    e-mail address included, and nothing is marked. *)
Theorem optional_fields_never_block
    (inputs : list Input) (errors : ErrorElements) :
  Forall (λ input, required (field input) = false) inputs →
  handleSubmit inputs errors = (true, (inputs, errors)).
Proof.
  unfold handleSubmit. intros Hall. revert errors.
  induction Hall as [|input rest Hopt _ IH]; intros errors; [done|]. simpl.
  by rewrite Hopt, IH.
Qed.

End FormFacts.

(** * Properties of the mobile menu, the labels, the metrics and the report *)

Section MenuFacts.

Import Menu.

Lemma handle_consistent (closeBtn : bool) (e : MenuEvent) (p : Page) :
  consistent p → consistent (handle closeBtn e p).
Proof.
  intros Hp. destruct e as [| | |key|[|]]; simpl; try done.
  - unfold toggleMenu. by destruct (menuActive p).
  - by destruct closeBtn.
  - by destruct (String.eqb key "Escape" && menuActive p).
Qed.

(** X23. Whatever the visitor does with the menu, the hamburger button
    and the scroll lock follow it: from a page where both agree with the
    menu, after any sequence of clicks and key presses the hamburger is
    active exactly when the menu is and the body is locked exactly when
    the menu is open; and a press of Escape then leaves the menu closed
    and the page scrolling. *)
Theorem menu_stays_consistent (closeBtn : bool) (events : list MenuEvent)
    (p : Page) :
  consistent p →
  consistent (run closeBtn events p) ∧
  let after := handle closeBtn (KeyDown "Escape") (run closeBtn events p) in
  menuActive after = false ∧ hamburgerActive after = false ∧
  bodyOverflow after = EmptyString.
Proof.
  intros Hp.
  assert (consistent (run closeBtn events p)) as Hrun.
  { unfold run. revert p Hp. induction events as [|e rest IH]; intros p Hp;
      [done|]. simpl. apply IH. by apply handle_consistent. }
  split; [done|]. destruct Hrun as [Hh Ho]. simpl.
  destruct (menuActive (run closeBtn events p)) eqn:Hm; simpl; [done|].
  by rewrite Hh, Ho.
Qed.

(** The hamburger is a switch: from a consistent page two clicks on
    it bring back the menu, the hamburger and the scroll lock as they
    were. *)
Theorem hamburger_twice (closeBtn : bool) (p : Page) :
  consistent p →
  let twice := run closeBtn [HamburgerClick; HamburgerClick] p in
  menuActive twice = menuActive p ∧
  hamburgerActive twice = hamburgerActive p ∧
  bodyOverflow twice = bodyOverflow p.
Proof.
  intros [Hh Ho]. simpl. unfold toggleMenu.
  destruct (menuActive p) eqn:Hm; simpl; by rewrite Hh, Ho.
Qed.

End MenuFacts.

Section AriaFacts.

Import Aria.

(** X24. An element that has a label that is not empty, its own or by
    reference, is left alone, and labelling is idempotent: a second pass
    over the page changes nothing. *)
Theorem labelling_keeps_and_settles (elements : list Element) :
  (∀ e, truthy (ariaLabel e) = true ∨ truthy (ariaLabelledby e) = true →
        label e = e) ∧
  setupARIALabels (setupARIALabels elements) = setupARIALabels elements.
Proof.
  split.
  - intros e [H|H]; unfold label; rewrite H; simpl; [done|].
    by rewrite andb_false_r.
  - unfold setupARIALabels. rewrite <- list_fmap_compose.
    apply list_fmap_ext. intros _ e _. simpl. unfold label at 2.
    destruct (negb (truthy (ariaLabel e)) && negb (truthy (ariaLabelledby e)))
      eqn:Hnone; [|unfold label; by rewrite Hnone].
    destruct (or_else (or_else (Some (textContent e)) (value e))
                (placeholder e)) as [[|c rest]|] eqn:Htext;
      try (unfold label; by rewrite Hnone, Htext).
    assert (label e
            = {| ariaLabel := Some (Form.trim (c :: rest));
                 ariaLabelledby := ariaLabelledby e;
                 textContent := textContent e;
                 value := value e;
                 placeholder := placeholder e |}) as ->.
    { unfold label. by rewrite Hnone, Htext. }
    apply andb_true_iff in Hnone as [_ Hby%negb_true_iff].
    unfold label. simpl. rewrite Hby.
    destruct (Form.trim (c :: rest)) eqn:Htrim; simpl; [|done].
    by rewrite Htext, Htrim.
Qed.

(** X25. The label of an element without one is the trimmed text of the
    first of its text content, its value and its placeholder that is not
    empty.  White space counts as text: an element whose text content is
    white space only gets the empty label, and its value and placeholder
    are not looked at. *)
Theorem label_source (e : Element) :
  truthy (ariaLabel e) = false →
  truthy (ariaLabelledby e) = false →
  (textContent e ≠ [] →
   ariaLabel (label e) = Some (Form.trim (textContent e))) ∧
  (textContent e ≠ [] →
   Forall (λ c, Form.isWhiteSpace c = true) (textContent e) →
   ariaLabel (label e) = Some []) ∧
  (textContent e = [] → truthy (value e) = true →
   ariaLabel (label e) = Form.trim <$> value e) ∧
  (textContent e = [] → truthy (value e) = false →
   truthy (placeholder e) = true →
   ariaLabel (label e) = Form.trim <$> placeholder e) ∧
  (textContent e = [] → truthy (value e) = false →
   truthy (placeholder e) = false →
   label e = e).
Proof.
  intros Hlabel Hby. unfold label. rewrite Hlabel, Hby. simpl.
  assert (textContent e ≠ [] →
          match
            or_else (or_else (Some (textContent e)) (value e)) (placeholder e)
          with
          | Some (c :: rest) =>
              {| ariaLabel := Some (Form.trim (c :: rest));
                 ariaLabelledby := ariaLabelledby e;
                 textContent := textContent e;
                 value := value e;
                 placeholder := placeholder e |}
          | _ => e
          end
          = {| ariaLabel := Some (Form.trim (textContent e));
               ariaLabelledby := ariaLabelledby e;
               textContent := textContent e;
               value := value e;
               placeholder := placeholder e |}) as Htext.
  { intros Hne. unfold or_else. simpl.
    by destruct (textContent e) as [|c rest]. }
  split; [|split; [|split; [|split]]].
  - intros Hne. by rewrite Htext.
  - intros Hne Hblank%trim_nil. by rewrite Htext, Hblank.
  - intros Hempty Hvalue. unfold or_else. rewrite Hempty. simpl.
    rewrite Hvalue. by destruct (value e) as [[|c rest]|].
  - intros Hempty Hvalue Hplace. unfold or_else. rewrite Hempty. simpl.
    rewrite Hvalue. by destruct (placeholder e) as [[|c rest]|].
  - intros Hempty Hvalue Hplace. unfold or_else. rewrite Hempty. simpl.
    rewrite Hvalue. by destruct (placeholder e) as [[|c rest]|].
Qed.

End AriaFacts.

Section VitalsFacts.

Import Vitals.

Variable number : Type.
Variable zero : number.
Variable add : number → number → number.

Lemma observed_run (entryList : list (LayoutShift number))
    (s : Cls number) :
  let counted := filter (λ entry, hadRecentInput number entry = false)
                   entryList in
  observed number add entryList s
  = {| clsValue := foldl add (clsValue number s) (shift number <$> counted);
       clsEntries := clsEntries number s ++ counted;
       metricsValue := metricsValue number s |}.
Proof.
  revert s. induction entryList as [|entry rest IH]; intros [v entries m].
  - simpl. by rewrite app_nil_r.
  - unfold observed in *. cbn [foldl]. rewrite filter_cons.
    destruct (hadRecentInput number entry) eqn:Hinput; simpl.
    + rewrite IH. simpl. done.
    + rewrite IH. simpl. by rewrite <- app_assoc.
Qed.

(** X26. The layout shift score that ends up in the metrics is the zero
    it was set up with, whatever shifts the observer reports afterwards:
    the callback adds them to its own running total and to the array of
    entries, which the metrics share, but the number in the metrics is
    never written again. *)
Theorem cls_metric_stays_zero (batches : list (list (LayoutShift number))) :
  let counted := filter (λ entry, hadRecentInput number entry = false)
                   (List.concat batches) in
  observe_all number zero add batches
  = {| clsValue := foldl add zero (shift number <$> counted);
       clsEntries := counted;
       metricsValue := zero |}.
Proof.
  cbv zeta. unfold observe_all.
  assert (∀ s,
            foldl (λ s batch, observed number add batch s) s batches
            = {| clsValue :=
                   foldl add (clsValue number s)
                     (shift number <$>
                        filter (λ entry, hadRecentInput number entry = false)
                          (List.concat batches));
                 clsEntries :=
                   clsEntries number s
                     ++ filter (λ entry, hadRecentInput number entry = false)
                          (List.concat batches);
                 metricsValue := metricsValue number s |}) as Hall.
  { induction batches as [|batch rest IH]; intros [v entries m].
    - simpl. by rewrite app_nil_r.
    - cbn [foldl List.concat]. rewrite IH, observed_run. simpl.
      by rewrite filter_app, fmap_app, foldl_app, <- app_assoc. }
  by rewrite Hall.
Qed.

End VitalsFacts.

Section ImagesFacts.

Import Images.

(** X27. The size report: an image that does not exist is passed over in
    silence; one that exists gets the warning for large files from 154112
    bytes on and the WebP suggestion from 102912 bytes on, so that the
    warning never comes without the suggestion, and always the line about
    responsive versions. *)
Theorem report_thresholds (stat : string → option Z) (image : string) :
  (stat image = None → report stat image = []) ∧
  ∀ size,
    stat image = Some size →
    (LargeFile ∈ report stat image ↔ 154112 ≤ size) ∧
    (ConvertToWebP ∈ report stat image ↔ 102912 ≤ size) ∧
    (LargeFile ∈ report stat image → ConvertToWebP ∈ report stat image) ∧
    ResponsiveVersions ∈ report stat image.
Proof.
  split; [by unfold report; intros ->|].
  intros size Hstat. unfold report. rewrite Hstat. unfold sizeKB.
  assert (150 < (size + 512) / 1024 ↔ 154112 ≤ size) as Hlarge.
  { split; intros H; Z.to_euclidean_division_equations; lia. }
  assert (100 < (size + 512) / 1024 ↔ 102912 ≤ size) as Hwebp.
  { split; intros H; Z.to_euclidean_division_equations; lia. }
  rewrite <- Hlarge, <- Hwebp.
  destruct (Z.ltb_spec 150 ((size + 512) / 1024)) as [H1|H1];
    destruct (Z.ltb_spec 100 ((size + 512) / 1024)) as [H2|H2];
    simpl; rewrite !elem_of_cons, !elem_of_nil;
    repeat split; try lia; intros; try lia; intuition (try discriminate; auto).
Qed.

End ImagesFacts.

(** X10. The one way a handled GET can fail.  The page gets a network
    error for a GET exactly when the request is a Page navigation, the
    network is down, and no cache holds the request or /index.html; in
    every other case it gets a response. *)
Theorem handled_get_fails_only_without_home
    (DYNAMIC_CACHE origin : string)
    (network : Request → option Response) (request : Request) (w : World) :
  method request = "GET" →
  (fst (dispatch_fetch DYNAMIC_CACHE origin network request w) = NetworkError ↔
   classify request = Page ∧ destination request = "document" ∧
   network request = None ∧
   storage_match (caches w) (url request) = None ∧
   storage_match (caches w) (resolve origin "/index.html") = None) ∧
  (fst (dispatch_fetch DYNAMIC_CACHE origin network request w) ≠ NetworkError →
   ∃ r, fst (dispatch_fetch DYNAMIC_CACHE origin network request w) = Received r).
Proof.
  intros Hget.
  destruct (fetch_answered_unless_home_missing DYNAMIC_CACHE origin network
              request w Hget)
    as [[r Hr] | (Hpage & Hdoc & Hdown & Hmiss & Hhome & Hfail)].
  - split; [|by eauto]. split; [by rewrite Hr|].
    intros (Hpage & Hdoc & Hdown & Hmiss & Hhome). revert Hr.
    unfold dispatch_fetch. rewrite onFetch_get, Hpage by done.
    unfold respondWith. simpl.
    by rewrite network_first_run, Hdown, Hmiss, Hdoc, Hhome.
  - split; [|by rewrite Hfail]. by split.
Qed.

(** ** The other scripts on small inputs *)

Example email_samples :
  map (λ s, Form.test Form.emailRegex (Form.trim (Form.units s)))
    ["a@b.c"; "a@b"; "a b@c.d"; "a@@b.c"; " me@example.com "; "@b.c";
     "a@b.c.d"; "a@.b"]%string
  = [true; false; false; false; true; false; true; false].
Proof. vm_compute. reflexivity. Qed.

Example name_samples :
  map (λ s, Form.test Form.nameRegex (Form.trim (Form.units s)))
    ["Ada Lovelace"; "R2 D2"; "O'Neil"; "x"]%string
  = [true; false; false; true].
Proof. vm_compute. reflexivity. Qed.

Example trim_samples :
  Form.trim (Form.units "  a b  ") = Form.units "a b" ∧
  Form.trim (Form.units "   ") = [] ∧
  Form.trim [160; 97; 8232]%N = [97]%N.
Proof. vm_compute. repeat split. Qed.

Example typing_sample :
  Typing.steps Sample.texts true 4 (Typing.Due (Typing.start []))
  = (Typing.Due {| Typing.currentTextIndex := 0;
                   Typing.currentCharIndex := 2;
                   Typing.isDeleting := true;
                   Typing.textContent := Form.units "We" |},
     [Typing.TypeSpeed; Typing.TypeSpeed; Typing.PauseTime;
      Typing.DeleteSpeed]).
Proof. vm_compute. reflexivity. Qed.

Example report_sample :
  Images.analysis
    (λ image, if String.eqb image "a.jpg" then Some 154112
              else if String.eqb image "b.jpg" then Some 102911
              else None)
    ["a.jpg"; "missing.jpg"; "b.jpg"]%string
  = [Images.SizeLine "a.jpg" 151; Images.LargeFile; Images.ConvertToWebP;
     Images.ResponsiveVersions; Images.BlankLine;
     Images.SizeLine "b.jpg" 100; Images.ResponsiveVersions;
     Images.BlankLine].
Proof. vm_compute. reflexivity. Qed.

(** ** The further properties at concrete inputs *)

Lemma installed_worker_answers_every_get_witness :
  ∃ r, fst (dispatch_fetch Deployed.DYNAMIC_CACHE Example.site Example.offline
              Example.about
              (browse Deployed.DYNAMIC_CACHE Example.site
                 [(Example.online, Example.photo);
                  (Example.offline, Sample.feed)]
                 (snd (lifecycle Deployed.STATIC_CACHE Deployed.DYNAMIC_CACHE
                         Example.site Example.online 3 Installing
                         Example.fresh))))
       = Received r.
Proof.
  apply (installed_worker_answers_every_get
           Deployed.STATIC_CACHE Deployed.DYNAMIC_CACHE Example.site
           Example.online Example.offline Example.fresh
           [(Example.online, Example.photo); (Example.offline, Sample.feed)]
           Example.about);
    reflexivity.
Defined.




Lemma older_cache_shadows_dynamic_witness :
  fst (dispatch_fetch Deployed.DYNAMIC_CACHE Example.site Example.offline
         Example.home
         (snd (dispatch_fetch Deployed.DYNAMIC_CACHE Example.site
                 (Example.serves Example.new_home) Example.home
                 Example.installed)))
  = Received Example.old_home.
Proof.
  destruct (older_cache_shadows_dynamic Deployed.DYNAMIC_CACHE Example.site
              (Example.serves Example.new_home) Example.offline Example.home
              Example.installed Example.old_home Example.new_home
              eq_refl eq_refl eq_refl eq_refl eq_refl eq_refl eq_refl)
    as (_ & _ & Holder).
  exact Holder.
Defined.

Lemma partitions_stay_current_witness :
  Deployed.DYNAMIC_CACHE = Deployed.STATIC_CACHE ∨
  Deployed.DYNAMIC_CACHE = Deployed.DYNAMIC_CACHE.
Proof.
  apply (partitions_stay_current Deployed.STATIC_CACHE Deployed.DYNAMIC_CACHE
           Example.site [(Example.online, Example.photo)]
           {| caches := [("static-v0.9.0"%string, ∅)]; trace := [] |}
           Deployed.DYNAMIC_CACHE).
  vm_compute. apply list_elem_of_here.
Defined.

Lemma handled_get_fails_only_without_home_witness :
  ∃ r, fst (dispatch_fetch Deployed.DYNAMIC_CACHE Example.site Example.offline
              Example.photo Example.fresh)
       = Received r.
Proof.
  apply (handled_get_fails_only_without_home Deployed.DYNAMIC_CACHE
           Example.site Example.offline Example.photo Example.fresh eq_refl).
  discriminate.
Defined.

Lemma typing_cycle_witness :
  fst (Typing.steps Sample.texts true 6 (Typing.Due (Typing.start [])))
  = Typing.Due {| Typing.currentTextIndex := 1;
                  Typing.currentCharIndex := 0;
                  Typing.isDeleting := false;
                  Typing.textContent := [] |}.
Proof.
  pose proof (typing_cycle Sample.texts (Form.units "Web") 0 []
                eq_refl ltac:(discriminate)) as [_ Hcycle].
  simpl in Hcycle. unfold Typing.start. simpl Z.of_nat.
  exact (f_equal fst Hcycle).
Defined.

Lemma typing_without_loop_stops_witness :
  fst (Typing.steps Sample.texts false (3 + 40)
         (Typing.Due (Typing.start [])))
  = Typing.Stopped {| Typing.currentTextIndex := 0;
                      Typing.currentCharIndex := 3;
                      Typing.isDeleting := false;
                      Typing.textContent := Form.units "Web" |}.
Proof.
  exact (f_equal fst
           (typing_without_loop_stops Sample.texts (Form.units "Web") [] 40
              eq_refl ltac:(discriminate))).
Defined.

Lemma empty_text_stalls_witness :
  fst (Typing.steps Sample.stuck true 25
         (Typing.Due {| Typing.currentTextIndex := 1;
                        Typing.currentCharIndex := 0;
                        Typing.isDeleting := false;
                        Typing.textContent := [] |}))
  = Typing.Due {| Typing.currentTextIndex := 1;
                  Typing.currentCharIndex := 25;
                  Typing.isDeleting := false;
                  Typing.textContent := [] |}.
Proof.
  exact (f_equal fst (empty_text_stalls Sample.stuck true 1 [] 24 eq_refl)).
Defined.

Lemma typing_stays_sound_witness :
  sound Sample.texts
    (fst (Typing.steps Sample.texts true 8 (Typing.Due (Typing.start [])))).
Proof.
  apply (typing_stays_sound Sample.texts true [] 7). discriminate.
Defined.

Lemma typing_period_witness :
  fst (Typing.steps Sample.texts true 10 (Typing.Due (Typing.start [])))
  = Typing.Due (Typing.start []).
Proof.
  apply (typing_period Sample.texts []).
  - discriminate.
  - repeat constructor; discriminate.
Defined.

Lemma blank_field_rule_witness :
  Form.validateField Sample.blankName Sample.untouched
  = (false, {| Form.errorClass := true; Form.validClass := false;
               Form.errorElement :=
                 Some ("This field is required"%string, true) |}).
Proof.
  apply (blank_field_rule Sample.blankName Sample.untouched).
  repeat constructor.
Defined.

Lemma email_rule_witness :
  fst (Form.validateField Sample.email Sample.untouched) = true.
Proof.
  apply (email_rule Sample.email Sample.untouched eq_refl).
  - discriminate.
  - exists (Form.units "me"), (Form.units "example"), (Form.units "com").
    split; [reflexivity|]. split; [discriminate|]. split; [discriminate|].
    split; [discriminate|]. repeat constructor; discriminate.
Defined.

Lemma name_rule_witness :
  fst (Form.validateField Sample.fullName Sample.untouched) = true.
Proof.
  destruct (name_rule Sample.fullName Sample.untouched) as [Hrule _].
  - discriminate.
  - reflexivity.
  - discriminate.
  - apply Hrule. apply (bool_decide_unpack _). vm_compute. exact I.
Defined.

Lemma message_rule_witness :
  fst (Form.validateField Sample.message Sample.untouched) = true.
Proof.
  destruct (message_rule Sample.message Sample.untouched) as [Hrule _].
  - discriminate.
  - reflexivity.
  - discriminate.
  - apply Hrule. apply (bool_decide_unpack _). vm_compute. exact I.
Defined.


Lemma optional_fields_never_block_witness :
  Form.handleSubmit [Sample.optionalInput] ∅
  = (true, ([Sample.optionalInput], ∅)).
Proof.
  apply (optional_fields_never_block [Sample.optionalInput] ∅).
  repeat constructor.
Defined.

Lemma menu_stays_consistent_witness :
  Menu.consistent
    (Menu.run true
       [Menu.HamburgerClick; Menu.MenuClick false; Menu.KeyDown "Tab";
        Menu.LinkClick; Menu.HamburgerClick]
       Sample.closed).
Proof.
  apply (menu_stays_consistent true
           [Menu.HamburgerClick; Menu.MenuClick false; Menu.KeyDown "Tab";
            Menu.LinkClick; Menu.HamburgerClick]
           Sample.closed).
  split; reflexivity.
Defined.

Lemma hamburger_twice_witness :
  Menu.menuActive
    (Menu.run false [Menu.HamburgerClick; Menu.HamburgerClick] Sample.closed)
  = Menu.menuActive Sample.closed.
Proof.
  apply (hamburger_twice false Sample.closed). split; reflexivity.
Defined.

Lemma label_source_witness :
  Aria.ariaLabel (Aria.label Sample.iconButton) = Some [].
Proof.
  destruct (label_source Sample.iconButton eq_refl eq_refl)
    as (_ & Hblank & _).
  apply Hblank; [discriminate|repeat constructor].
Defined.
